(** * Neon Snake: a shallow embedding of [src/components/SnakeGame.tsx]

    The component is modelled as a state machine.  Its React state
    ([useState]) and its refs ([useRef]) are the fields of one record; every
    browser event (a timer callback, a key press, a click) is handled
    atomically: the handler runs, React commits the queued updates and the
    effects ([useEffect]) run, before the next event is looked at.  Updater
    functions are run once per update, as in a production build.

    Time is the sequence of events: the timer coming due is an event of its
    own, which runs the interval callback only while an interval is live.
    Randomness is an input: every event carries the number [Math.random()]
    would return if the handler drew a food cell. *)

From stdpp Require Import gmap strings list pretty sorting.
From Stdlib Require Import Ascii QArith Qround.
Close Scope Q_scope.
Open Scope Z_scope.

(** ** JavaScript built-ins used by the component *)

Module JS.

(** A result of [Math.random()]: a number [u] with [0 <= u < 1].  The
    doubles it returns are rationals; the range is part of the type.  The
    product [u * n] is taken exactly: rounding it to a double can move its
    floor to the next index, never out of [0 .. n-1], and every index of
    that range is the floor of some [u * n] (lemma [getRandomFood_any]). *)
Record unit_interval := {
  value : Q;
  in_range : Qle_bool 0 value && negb (Qle_bool 1 value) = true
}.

(** Numbers are modelled by integers.  This is exact for the integers the
    game computes with and for the stored numerals up to the largest integer
    a double holds exactly. *)
Definition MAX_SAFE_INTEGER : Z := 2 ^ 53 - 1.

Definition Math_floor (q : Q) : Z := Qfloor q.

Definition Math_max (a b : Z) : Z := Z.max a b.

(** [String(n)] and [`${n}`] for an integer [n]: its decimal numeral. *)
Definition String_of (n : Z) : string := pretty n.

(** [a[i]] for an array [a]: [None] stands for [undefined]. *)
Definition index {A} (a : list A) (i : Z) : option A :=
  if decide (0 ≤ i) then a !! Z.to_nat i else None.

(** [for (let i = 0; i < n; i += 1) body], threading the variables the body
    assigns. *)
Definition for_range {S} (n : Z) (body : Z → S → S) (init : S) : S :=
  foldl (λ acc i, body i acc) init (seqZ 0 n).

(** Strings are sequences of code units; [string] covers the code units
    below U+0100, which is where every character looked at below lives. *)
Definition code (c : ascii) : N := N_of_ascii c.

(** [toLowerCase] on one code unit (the letters A-Z). *)
Definition toLowerCase_char (c : ascii) : ascii :=
  if decide (65 ≤ code c ∧ code c ≤ 90)%N
  then ascii_of_N (code c + 32) else c.

Fixpoint toLowerCase (s : string) : string :=
  match s with
  | String c s' => String (toLowerCase_char c) (toLowerCase s')
  | EmptyString => EmptyString
  end.

(** White space and line terminators skipped by [parseInt]: TAB, LF, VT, FF,
    CR, SP and NBSP. *)
Definition isWhiteSpace (c : ascii) : bool :=
  bool_decide (code c ∈ [9; 10; 11; 12; 13; 32; 160]%N).

Definition isDigit (c : ascii) : bool :=
  bool_decide (48 ≤ code c ∧ code c ≤ 57)%N.

Definition digitValue (c : ascii) : Z := Z.of_N (code c) - 48.

Fixpoint trimStart (s : string) : string :=
  match s with
  | String c s' => if isWhiteSpace c then trimStart s' else s
  | EmptyString => EmptyString
  end.

(** The longest prefix of radix-10 digits, read left to right with the
    value [acc] of the digits already seen; [None] when there is none. *)
Fixpoint digitsPrefix (acc : option Z) (s : string) : option Z :=
  match s with
  | String c s' =>
      if isDigit c
      then digitsPrefix (Some (10 * default 0 acc + digitValue c)) s'
      else acc
  | EmptyString => acc
  end.

(** [Number.parseInt(s, 10)]; [None] stands for [NaN].  Leading white space
    is skipped, one sign is taken, and the digits that follow are read up to
    the first code unit that is not a digit. *)
Definition parseInt (s : string) : option Z :=
  match trimStart s with
  | String c s' =>
      let sign := if decide (c = "-"%char) then -1 else 1 in
      let s'' := if decide (c = "+"%char ∨ c = "-"%char)
                 then s' else String c s' in
      Z.mul sign <$> digitsPrefix None s''
  | EmptyString => None
  end.

End JS.

(** ** Cells and constants *)

Record Cell := mkCell { x : Z; y : Z }.

#[global] Instance Cell_eq_dec : EqDecision Cell.
Proof. solve_decision. Defined.

Definition GRID_SIZE : Z := 25.
Definition INITIAL_SPEED : Z := 150.
Definition SPEED_FLOOR : Z := 60.
Definition SPEED_STEP : Z := 4.

(** The table is looked up with [event.key]; the lookup finds the eight
    entries below and nothing else, no DOM key value being the name of a
    member of [Object.prototype]. *)
Definition KEY_TO_DIRECTION : gmap string Cell :=
  list_to_map [
    ("ArrowUp", mkCell 0 (-1));
    ("ArrowDown", mkCell 0 1);
    ("ArrowLeft", mkCell (-1) 0);
    ("ArrowRight", mkCell 1 0);
    ("w", mkCell 0 (-1));
    ("s", mkCell 0 1);
    ("a", mkCell (-1) 0);
    ("d", mkCell 1 0)
  ].

Definition createInitialSnake : list Cell :=
  let center := JS.Math_floor (inject_Z GRID_SIZE / 2)%Q in
  [ mkCell (center + 1) center;
    mkCell center center;
    mkCell (center - 1) center ].

(** The key [`${x}:${y}`] under which a cell is stored in [occupiedKey]. *)
Definition cellKey (c : Cell) : string :=
  JS.String_of (x c) +:+ ":" +:+ JS.String_of (y c).

(** The array [spaces] built by the two loops of [getRandomFood]. *)
Definition spaces (occupied : list Cell) : list Cell :=
  let occupiedKey : gset string := list_to_set (cellKey <$> occupied) in
  JS.for_range GRID_SIZE (λ y spaces,
    JS.for_range GRID_SIZE (λ x spaces,
      if decide (cellKey (mkCell x y) ∈ occupiedKey)
      then spaces
      else spaces ++ [mkCell x y]) spaces) [].

(** [Math.floor(Math.random() * n)]. *)
Definition randomIndex (u : JS.unit_interval) (n : nat) : Z :=
  JS.Math_floor (JS.value u * inject_Z (Z.of_nat n))%Q.

(** [getRandomFood].  The index is within the array for every [u] (lemma
    [randomIndex_lookup]), so the [default] is never used. *)
Definition getRandomFood (u : JS.unit_interval) (occupied : list Cell) : Cell :=
  let spaces := spaces occupied in
  if decide (length spaces = 0%nat) then mkCell 0 0
  else default (mkCell 0 0) (JS.index spaces (randomIndex u (length spaces))).

Definition cellsEqual (a b : Cell) : bool :=
  bool_decide (x a = x b) && bool_decide (y a = y b).

#[global] Instance Cell_inhabited : Inhabited Cell := populate (mkCell 0 0).

(** ** The state of the component

    The [useState] cells, the [useRef] cells and the one entry of
    [window.localStorage] the component reads and writes.  [loopRef] holds the
    live interval, represented by its period; [None] is [null]. *)

Record State := mkState {
  snake : list Cell;
  direction : Cell;
  food : Cell;
  isRunning : bool;
  isGameOver : bool;
  score : Z;
  highScore : Z;
  speed : Z;
  nextDirectionRef : option Cell;
  directionRef : Cell;
  loopRef : option Z;
  localStorage : option string
}.

Definition setSnake (v : list Cell) (s : State) : State :=
  mkState v (direction s) (food s) (isRunning s) (isGameOver s) (score s)
    (highScore s) (speed s) (nextDirectionRef s) (directionRef s) (loopRef s)
    (localStorage s).
Definition setDirection (v : Cell) (s : State) : State :=
  mkState (snake s) v (food s) (isRunning s) (isGameOver s) (score s)
    (highScore s) (speed s) (nextDirectionRef s) (directionRef s) (loopRef s)
    (localStorage s).
Definition setFood (v : Cell) (s : State) : State :=
  mkState (snake s) (direction s) v (isRunning s) (isGameOver s) (score s)
    (highScore s) (speed s) (nextDirectionRef s) (directionRef s) (loopRef s)
    (localStorage s).
Definition setIsRunning (v : bool) (s : State) : State :=
  mkState (snake s) (direction s) (food s) v (isGameOver s) (score s)
    (highScore s) (speed s) (nextDirectionRef s) (directionRef s) (loopRef s)
    (localStorage s).
Definition setIsGameOver (v : bool) (s : State) : State :=
  mkState (snake s) (direction s) (food s) (isRunning s) v (score s)
    (highScore s) (speed s) (nextDirectionRef s) (directionRef s) (loopRef s)
    (localStorage s).
Definition setScore (v : Z) (s : State) : State :=
  mkState (snake s) (direction s) (food s) (isRunning s) (isGameOver s) v
    (highScore s) (speed s) (nextDirectionRef s) (directionRef s) (loopRef s)
    (localStorage s).
Definition setHighScore (v : Z) (s : State) : State :=
  mkState (snake s) (direction s) (food s) (isRunning s) (isGameOver s)
    (score s) v (speed s) (nextDirectionRef s) (directionRef s) (loopRef s)
    (localStorage s).
Definition setSpeed (v : Z) (s : State) : State :=
  mkState (snake s) (direction s) (food s) (isRunning s) (isGameOver s)
    (score s) (highScore s) v (nextDirectionRef s) (directionRef s) (loopRef s)
    (localStorage s).
Definition setNextDirectionRef (v : option Cell) (s : State) : State :=
  mkState (snake s) (direction s) (food s) (isRunning s) (isGameOver s)
    (score s) (highScore s) (speed s) v (directionRef s) (loopRef s)
    (localStorage s).
Definition setDirectionRef (v : Cell) (s : State) : State :=
  mkState (snake s) (direction s) (food s) (isRunning s) (isGameOver s)
    (score s) (highScore s) (speed s) (nextDirectionRef s) v (loopRef s)
    (localStorage s).
Definition setLoopRef (v : option Z) (s : State) : State :=
  mkState (snake s) (direction s) (food s) (isRunning s) (isGameOver s)
    (score s) (highScore s) (speed s) (nextDirectionRef s) (directionRef s) v
    (localStorage s).
Definition setLocalStorage (v : option string) (s : State) : State :=
  mkState (snake s) (direction s) (food s) (isRunning s) (isGameOver s)
    (score s) (highScore s) (speed s) (nextDirectionRef s) (directionRef s)
    (loopRef s) v.

(** [s |> f |> g]: the assignments of a handler, in program order. *)
Notation "s |> f" := (f s) (at level 45, left associativity, only parsing).

(** ** Callbacks *)

Definition resetGame (u : JS.unit_interval) (autoStart : bool) (s : State)
  : State :=
  let freshSnake := createInitialSnake in
  let newFood := getRandomFood u freshSnake in
  s |> setSnake freshSnake
    |> setDirection (mkCell 1 0)
    |> setNextDirectionRef None
    |> setFood newFood
    |> setScore 0
    |> setSpeed INITIAL_SPEED
    |> setIsGameOver false
    |> setIsRunning autoStart.

Definition handleGameOver (s : State) : State :=
  s |> setIsRunning false |> setIsGameOver true.

(** [step]: the updater passed to [setSnake], with the updates it queues.
    [food] is the value the callback closed over, that of the last render.
    [None] is the [TypeError] of reading [head.x] on an empty array. *)
Definition step (u : JS.unit_interval) (currentDirection : Cell) (s : State)
  : option State :=
  let previousSnake := snake s in
  head ← JS.index previousSnake 0;
  let nextHead := mkCell (x head + x currentDirection)
                         (y head + y currentDirection) in
  let hitsWall :=
    (x nextHead <? 0) || (y nextHead <? 0) ||
    (x nextHead >=? GRID_SIZE) || (y nextHead >=? GRID_SIZE) in
  let hitsSelf :=
    existsb (λ segment, cellsEqual segment nextHead) previousSnake in
  if hitsWall || hitsSelf then
    Some (handleGameOver s)
  else
    let nextSnake := nextHead :: previousSnake in
    let ateFood := cellsEqual nextHead (food s) in
    if ateFood then
      let newFood := getRandomFood u nextSnake in
      let updatedScore := score s + 10 in
      Some (s |> setFood newFood
              |> setScore updatedScore
              |> setHighScore (if updatedScore >? highScore s
                               then updatedScore else highScore s)
              |> setSpeed (JS.Math_max SPEED_FLOOR (speed s - SPEED_STEP))
              |> setSnake nextSnake)
    else
      Some (s |> setSnake (removelast nextSnake)).

(** The callback given to [window.setInterval]. *)
Definition intervalCallback (u : JS.unit_interval) (s : State) : option State :=
  let nextDirection := nextDirectionRef s in
  let activeDirection := default (directionRef s) nextDirection in
  let s :=
    match nextDirection with
    | Some d => s |> setDirection d |> setDirectionRef d
                  |> setNextDirectionRef None
    | None => s
    end in
  step u activeDirection s.

Definition handleKeyDown (u : JS.unit_interval) (event_key : string)
  (s : State) : State :=
  let key := if decide (String.length event_key = 1%nat)
             then JS.toLowerCase event_key else event_key in
  if decide (key = " ") then
    if isGameOver s then resetGame u true s
    else s |> setIsRunning (negb (isRunning s))
  else
    match KEY_TO_DIRECTION !! key with
    | None => s
    | Some desiredDirection =>
        let currentX := x (directionRef s) in
        let currentY := y (directionRef s) in
        if (currentX + x desiredDirection =? 0)
           && (currentY + y desiredDirection =? 0)
        then s
        else
          let s' := s |> setNextDirectionRef (Some desiredDirection) in
          if negb (isRunning s) && negb (isGameOver s)
          then s' |> setIsRunning true else s'
    end.

Definition handleStart (u : JS.unit_interval) (s : State) : State :=
  if isGameOver s then resetGame u true s else s |> setIsRunning true.

Definition handlePause (s : State) : State := s |> setIsRunning false.

Definition handleResume (s : State) : State :=
  if negb (isGameOver s) then s |> setIsRunning true else s.

Definition handleRestart (u : JS.unit_interval) (s : State) : State :=
  resetGame u true s.

(** The four on-screen buttons share one handler up to [desired]. *)
Inductive Pad := PadUp | PadLeft | PadRight | PadDown.

Definition padKey (p : Pad) : string :=
  match p with
  | PadUp => "ArrowUp" | PadLeft => "ArrowLeft"
  | PadRight => "ArrowRight" | PadDown => "ArrowDown"
  end.

Definition onClickPad (p : Pad) (s : State) : State :=
  let desired := KEY_TO_DIRECTION !!! padKey p in
  let currentX := x (directionRef s) in
  let currentY := y (directionRef s) in
  if negb (currentX + x desired =? 0) || negb (currentY + y desired =? 0)
  then
    let s' := s |> setNextDirectionRef (Some desired) in
    if negb (isRunning s) then s' |> setIsRunning true else s'
  else s.

(** ** Effects *)

(** [useEffect(() => { directionRef.current = direction }, [direction])]. *)
Definition directionEffect (s : State) : State :=
  s |> setDirectionRef (direction s).

(** The effect that reads the stored high score when the component mounts. *)
Definition loadEffect (s : State) : State :=
  match localStorage s with
  | Some stored =>
      if decide (stored = "") then s
      else match JS.parseInt stored with
           | Some parsed => s |> setHighScore parsed
           | None => s
           end
  | None => s
  end.

(** The effect that stores the high score. *)
Definition persistEffect (s : State) : State :=
  s |> setLocalStorage (Some (JS.String_of (highScore s))).

(** The effect that clears and re-arms the interval. *)
Definition timerEffect (s : State) : State :=
  if negb (isRunning s) || isGameOver s
  then s |> setLoopRef None
  else s |> setLoopRef (Some (speed s)).

(** What follows a commit.  React runs an effect again only when one of its
    dependencies changed; each effect above writes a function of its
    dependencies, so running all of them after every event gives the same
    refs and the same storage. *)
Definition render (s : State) : State :=
  s |> directionEffect |> persistEffect |> timerEffect.

(** ** Drawing *)








(** ** Events *)

Definition initialState (u : JS.unit_interval) (stored : option string)
  : State :=
  let snake := createInitialSnake in
  {| snake := snake;
     direction := mkCell 1 0;
     food := getRandomFood u snake;
     isRunning := false;
     isGameOver := false;
     score := 0;
     highScore := 0;
     speed := INITIAL_SPEED;
     nextDirectionRef := None;
     directionRef := mkCell 1 0;
     loopRef := None;
     localStorage := stored |}.

(** Mounting: the first render, the read of the stored high score (which
    comes before the first write), and the commit of the value read. *)
Definition mount (u : JS.unit_interval) (stored : option string) : State :=
  initialState u stored |> loadEffect |> render.

Inductive Event :=
| TimerFire
| KeyDown (key : string)
| ClickStart
| ClickPause
| ClickResume
| ClickRestart
| ClickPad (p : Pad).

Definition showStart (s : State) : bool :=
  negb (isRunning s) && negb (isGameOver s) && (score s =? 0).

Definition showResume (s : State) : bool :=
  negb (isRunning s) && negb (isGameOver s) && (score s >? 0).

Definition restartDisabled (s : State) : bool :=
  (score s =? 0) && negb (isRunning s) && negb (isGameOver s).

(** The handler an event reaches.  The timer calls back only while an
    interval is live; a button that is not rendered, or is disabled, receives
    no click. *)
Definition dispatch (u : JS.unit_interval) (e : Event) (s : State)
  : option State :=
  match e with
  | TimerFire =>
      match loopRef s with
      | Some _ => intervalCallback u s
      | None => Some s
      end
  | KeyDown key => Some (handleKeyDown u key s)
  | ClickStart => Some (if showStart s then handleStart u s else s)
  | ClickPause => Some (if isRunning s then handlePause s else s)
  | ClickResume => Some (if showResume s then handleResume s else s)
  | ClickRestart => Some (if restartDisabled s then s else handleRestart u s)
  | ClickPad p => Some (onClickPad p s)
  end.

Definition handle (u : JS.unit_interval) (e : Event) (s : State)
  : option State :=
  render <$> dispatch u e s.

Fixpoint run (es : list (JS.unit_interval * Event)) (s : State)
  : option State :=
  match es with
  | [] => Some s
  | (u, e) :: es' => s' ← handle u e s; run es' s'
  end.

Inductive reachable : State → Prop :=
| reachable_mount u stored : reachable (mount u stored)
| reachable_handle s u e s' :
    reachable s → handle u e s = Some s' → reachable s'.

(** ** Vocabulary of the specification *)

Definition inBounds (c : Cell) : Prop :=
  0 ≤ x c < GRID_SIZE ∧ 0 ≤ y c < GRID_SIZE.

(** Every cell of the grid, row by row ([y] outer, [x] inner). *)
Definition rowMajor : list Cell :=
  y ← seqZ 0 GRID_SIZE; x ← seqZ 0 GRID_SIZE; [mkCell x y].

Definition freeCells (occupied : list Cell) : list Cell :=
  filter (λ c, c ∉ occupied) rowMajor.

Definition rowMajor_lt (c d : Cell) : Prop :=
  y c < y d ∨ (y c = y d ∧ x c < x d).

Definition opposite (c d : Cell) : Prop :=
  x c + x d = 0 ∧ y c + y d = 0.

(** The direction a tick applies: the pending one if there is one. *)
Definition activeDirection (s : State) : Cell :=
  default (directionRef s) (nextDirectionRef s).

(** The state once a tick has taken the pending direction, if any. *)
Definition consume (s : State) : State :=
  match nextDirectionRef s with
  | Some d => s |> setDirection d |> setDirectionRef d
                |> setNextDirectionRef None
  | None => s
  end.

Definition advance (head d : Cell) : Cell :=
  mkCell (x head + x d) (y head + y d).

(** A base-10 numeral of a non-negative integer: digits, at least one. *)
Fixpoint allDigits (s : string) : bool :=
  match s with
  | String c s' => JS.isDigit c && allDigits s'
  | EmptyString => true
  end.

Definition wellFormedNumeral (s : string) : bool :=
  negb (bool_decide (s = "")) && allDigits s.

(** The key [handleKeyDown] looks at. *)
Definition normalizedKey (event_key : string) : string :=
  if decide (String.length event_key = 1%nat)
  then JS.toLowerCase event_key else event_key.

(** The direction an input proposes, if it proposes one. *)
Definition proposedDirection (e : Event) : option Cell :=
  match e with
  | KeyDown key =>
      if decide (normalizedKey key = " ") then None
      else KEY_TO_DIRECTION !! normalizedKey key
  | ClickPad p => Some (KEY_TO_DIRECTION !!! padKey p)
  | _ => None
  end.

(** The strings [parseInt] reads a number from: white space, a sign, the
    digits [ds] (at least one, and as many as there are), anything. *)
Fixpoint allWhiteSpace (s : string) : bool :=
  match s with
  | String c s' => JS.isWhiteSpace c && allWhiteSpace s'
  | EmptyString => true
  end.

Definition startsWithDigit (s : string) : bool :=
  match s with
  | String c _ => JS.isDigit c
  | EmptyString => false
  end.

Inductive Sign := NoSign | PlusSign | MinusSign.

Definition signString (sg : Sign) : string :=
  match sg with NoSign => "" | PlusSign => "+" | MinusSign => "-" end.

Definition signFactor (sg : Sign) : Z :=
  match sg with MinusSign => -1 | _ => 1 end.

Definition numericPrefix (str : string) (sg : Sign) (ds : string) : Prop :=
  ∃ ws rest,
    str = ws +:+ signString sg +:+ ds +:+ rest
    ∧ allWhiteSpace ws = true
    ∧ ds ≠ "" ∧ allDigits ds = true
    ∧ startsWithDigit rest = false.

(** The number a string of digits denotes, most significant digit first. *)
Fixpoint decimalValue (acc : Z) (ds : string) : Z :=
  match ds with
  | String c ds' => decimalValue (10 * acc + JS.digitValue c) ds'
  | EmptyString => acc
  end.

(** The events that call [resetGame]. *)
Definition invokesReset (e : Event) (s : State) : bool :=
  match e with
  | KeyDown key => bool_decide (normalizedKey key = " ") && isGameOver s
  | ClickRestart => negb (restartDisabled s)
  | ClickStart => showStart s && isGameOver s
  | _ => false
  end.

Definition firesTimer (e : Event) : bool :=
  match e with TimerFire => true | _ => false end.

(** Paths of events between two ticks of one run: no timer callback and no
    call of [resetGame]. *)
Inductive quiet : State → State → Prop :=
| quiet_refl s : quiet s s
| quiet_step s u e s' s'' :
    firesTimer e = false → invokesReset e s = false →
    handle u e s = Some s' → quiet s' s'' → quiet s s''.

(** Time passing: the timer comes due once per element, each time with the
    random number a food draw would use. *)
Definition elapse (us : list JS.unit_interval)
  : list (JS.unit_interval * Event) :=
  (λ u, (u, TimerFire)) <$> us.

(** No event of the trace calls [resetGame]. *)
Fixpoint noReset (es : list (JS.unit_interval * Event)) (s : State) : Prop :=
  match es with
  | [] => True
  | (u, e) :: es' =>
      invokesReset e s = false
      ∧ match handle u e s with
        | Some s' => noReset es' s'
        | None => True
        end
  end.

Definition isUnit (d : Cell) : Prop :=
  d ∈ [mkCell 1 0; mkCell (-1) 0; mkCell 0 1; mkCell 0 (-1)].

(** A well-formed board: a non-empty snake of distinct cells of the grid,
    and a tick interval between the floor and the initial speed. *)
Definition Board (body : list Cell) (interval : Z) : Prop :=
  body ≠ [] ∧ NoDup body ∧ Forall inBounds body
  ∧ SPEED_FLOOR ≤ interval ≤ INITIAL_SPEED.

(** What holds of every state the component can be in between two events. *)
Record Inv (s : State) : Prop := {
  inv_board : Board (snake s) (speed s);
  inv_direction : directionRef s = direction s;
  inv_unit : isUnit (direction s);
  inv_pending :
    ∀ d, nextDirectionRef s = Some d → isUnit d ∧ ¬ opposite (directionRef s) d;
  inv_timer :
    loopRef s
    = if negb (isRunning s) || isGameOver s then None else Some (speed s);
  inv_storage : localStorage s = Some (JS.String_of (highScore s))
}.

(** The snake covers the whole grid. *)
Definition boardFull (body : list Cell) : Prop :=
  ∀ c, inBounds c → c ∈ body.

(** Two cells next to each other in a row or in a column. *)
Definition adjacent (c d : Cell) : Prop :=
  isUnit (mkCell (x c - x d) (y c - y d)).

(** Each cell of the body is next to the one that follows it. *)
Fixpoint chain (body : list Cell) : Prop :=
  match body with
  | c :: rest =>
      match rest with
      | d :: _ => adjacent c d ∧ chain rest
      | [] => True
      end
  | [] => True
  end.

(** How score, speed, food and body hang together. *)
Record Progress (s : State) : Prop := {
  prog_score : score s = 10 * (Z.of_nat (length (snake s)) - 3);
  prog_speed :
    speed s
    = Z.max SPEED_FLOOR
        (INITIAL_SPEED - SPEED_STEP * (Z.of_nat (length (snake s)) - 3));
  prog_food : inBounds (food s) ∧ (food s ∈ snake s → boardFull (snake s));
  prog_chain : chain (snake s)
}.

#[global] Instance rowMajor_lt_dec c d : Decision (rowMajor_lt c d).
Proof. unfold rowMajor_lt. apply _. Defined.

(** ** Sample inputs *)

Definition u0 : JS.unit_interval :=
  {| JS.value := 0; JS.in_range := eq_refl |}.

Definition u_half : JS.unit_interval :=
  {| JS.value := 1 # 2; JS.in_range := eq_refl |}.

(** The game started from the first render, before any tick. *)
Definition started : State :=
  {| snake := [mkCell 13 12; mkCell 12 12; mkCell 11 12];
     direction := mkCell 1 0;
     food := mkCell 0 0;
     isRunning := true;
     isGameOver := false;
     score := 0;
     highScore := 0;
     speed := 150;
     nextDirectionRef := None;
     directionRef := mkCell 1 0;
     loopRef := Some 150;
     localStorage := Some "0" |}.

Definition paused : State :=
  started |> setIsRunning false |> setLoopRef None.

(** [started] one tick later, then with "w" pressed, then with the on-screen
    down arrow clicked. *)
Definition afterTick : State :=
  {| snake := [mkCell 14 12; mkCell 13 12; mkCell 12 12];
     direction := mkCell 1 0;
     food := mkCell 0 0;
     isRunning := true;
     isGameOver := false;
     score := 0;
     highScore := 0;
     speed := 150;
     nextDirectionRef := None;
     directionRef := mkCell 1 0;
     loopRef := Some 150;
     localStorage := Some "0" |}.

Definition turningUp : State :=
  afterTick |> setNextDirectionRef (Some (mkCell 0 (-1))).

Definition turningDown : State :=
  afterTick |> setNextDirectionRef (Some (mkCell 0 1)).

(** A snake of four cells about to turn left onto its own tail. *)
Definition chasingTail : State :=
  {| snake := [mkCell 1 0; mkCell 1 1; mkCell 0 1; mkCell 0 0];
     direction := mkCell 0 (-1);
     food := mkCell 5 5;
     isRunning := true;
     isGameOver := false;
     score := 10;
     highScore := 10;
     speed := 146;
     nextDirectionRef := Some (mkCell (-1) 0);
     directionRef := mkCell 0 (-1);
     loopRef := Some 146;
     localStorage := Some "10" |}.

(** The initial snake, running, with the food right in front of it. *)
Definition aboutToEat : State :=
  mount u0 None |> setFood (mkCell 14 12) |> setIsRunning true |> render.

(** [aboutToEat] one tick later, the food drawn with [u_half]. *)
Definition fed : State :=
  {| snake := [mkCell 14 12; mkCell 13 12; mkCell 12 12; mkCell 11 12];
     direction := mkCell 1 0;
     food := mkCell 10 12;
     isRunning := true;
     isGameOver := false;
     score := 10;
     highScore := 10;
     speed := 146;
     nextDirectionRef := None;
     directionRef := mkCell 1 0;
     loopRef := Some 146;
     localStorage := Some "10" |}.

(** [started] after going up column 22 and along row 0 to the food at (0,0),
    the new food drawn with [u0]. *)
Definition grown : State :=
  {| snake := [mkCell 0 0; mkCell 1 0; mkCell 2 0; mkCell 3 0];
     direction := mkCell (-1) 0;
     food := mkCell 4 0;
     isRunning := true;
     isGameOver := false;
     score := 10;
     highScore := 10;
     speed := 146;
     nextDirectionRef := None;
     directionRef := mkCell (-1) 0;
     loopRef := Some 146;
     localStorage := Some "10" |}.

(** A snake whose head is on the right border, heading right. *)
Definition atRightWall : State :=
  {| snake := [mkCell 24 12; mkCell 23 12; mkCell 22 12];
     direction := mkCell 1 0;
     food := mkCell 0 0;
     isRunning := true;
     isGameOver := false;
     score := 0;
     highScore := 0;
     speed := 150;
     nextDirectionRef := None;
     directionRef := mkCell 1 0;
     loopRef := Some 150;
     localStorage := Some "0" |}.

(** [atRightWall] one tick later: the game is over. *)
Definition crashed : State :=
  atRightWall |> setIsRunning false |> setIsGameOver true |> setLoopRef None.

Fixpoint noColon (s : string) : bool :=
  match s with
  | String c s' => negb (bool_decide (c = ":"%char)) && noColon s'
  | EmptyString => true
  end.

(** * Properties of the built-ins *)

Section numerals.

Lemma noColon_app (a b : string) :
  noColon (a +:+ b) = noColon a && noColon b.
Proof.
  induction a as [|c a IH]; simpl; [done|].
  by rewrite IH, andb_assoc.
Qed.

Lemma noColon_pretty_N_go (n : N) (s : string) :
  noColon s = true → noColon (pretty_N_go n s) = true.
Proof.
  revert s. induction (N.lt_wf_0 n) as [n _ IH]; intros s Hs.
  destruct (decide (n = 0)%N) as [->|Hn]; [by rewrite pretty_N_go_0|].
  rewrite pretty_N_go_step by lia.
  apply IH; [apply N.div_lt; lia|].
  simpl. rewrite Hs, andb_true_r.
  unfold pretty_N_char. by repeat case_match.
Qed.

Lemma noColon_pretty_N (n : N) : noColon (pretty n) = true.
Proof.
  unfold pretty, pretty_N. case_decide; [done|].
  by apply noColon_pretty_N_go.
Qed.

Lemma noColon_String_of (n : Z) : noColon (JS.String_of n) = true.
Proof.
  unfold JS.String_of, pretty, pretty_Z. destruct n as [|p|p]; [done|..].
  - apply noColon_pretty_N.
  - rewrite noColon_app. simpl. apply noColon_pretty_N.
Qed.

Lemma split_at_colon (a a' b b' : string) :
  noColon a = true → noColon a' = true →
  a +:+ ":" +:+ b = a' +:+ ":" +:+ b' → a = a' ∧ b = b'.
Proof.
  revert a'. induction a as [|c a IH]; intros [|c' a'] Ha Ha' Heq;
    simpl in *; simplify_eq; [done|].
  apply andb_prop in Ha as [_ Ha]. apply andb_prop in Ha' as [_ Ha'].
  by destruct (IH a' Ha Ha') as [-> ->].
Qed.

Lemma String_of_inj (m n : Z) : JS.String_of m = JS.String_of n → m = n.
Proof. apply (inj (pretty (A:=Z))). Qed.

#[global] Instance cellKey_inj : Inj (=) (=) cellKey.
Proof.
  intros [x1 y1] [x2 y2]. unfold cellKey; simpl. intros Heq.
  apply split_at_colon in Heq as [Hx Hy]; auto using noColon_String_of.
  by rewrite (String_of_inj _ _ Hx), (String_of_inj _ _ Hy).
Qed.

End numerals.

Section random.

Lemma unit_interval_range (u : JS.unit_interval) :
  (0 <= JS.value u)%Q ∧ (JS.value u < 1)%Q.
Proof.
  destruct u as [q Hq]; simpl.
  apply andb_prop in Hq as [H0 H1]. split.
  - by apply Qle_bool_iff.
  - apply Qnot_le_lt. intros Hle%Qle_bool_iff. by rewrite Hle in H1.
Qed.

Lemma randomIndex_range (u : JS.unit_interval) (n : nat) :
  (0 < n)%nat → 0 ≤ randomIndex u n < Z.of_nat n.
Proof.
  intros Hn. destruct (unit_interval_range u) as [H0 H1].
  unfold randomIndex, JS.Math_floor.
  set (q := JS.value u) in *. set (m := Z.of_nat n).
  assert (0 < inject_Z m)%Q as Hm.
  { change (inject_Z 0 < inject_Z m)%Q. rewrite <-Zlt_Qlt. lia. }
  split.
  - change 0 with (Qfloor 0). apply Qfloor_resp_le.
    apply Qmult_le_0_compat; [done|]. by apply Qlt_le_weak.
  - rewrite Zlt_Qlt.
    eapply Qle_lt_trans; [apply Qfloor_le|].
    rewrite <-(Qmult_1_l (inject_Z m)) at 2.
    by apply Qmult_lt_compat_r.
Qed.

(** The element [getRandomFood] reads is within the array. *)
Lemma randomIndex_lookup {A} (u : JS.unit_interval) (a : list A) :
  a ≠ [] → is_Some (JS.index a (randomIndex u (length a))).
Proof.
  intros Ha.
  assert (0 < length a)%nat as Hlen by (destruct a; simpl; [done|lia]).
  destruct (randomIndex_range u _ Hlen) as [H0 H1].
  unfold JS.index. rewrite decide_True by done.
  apply lookup_lt_is_Some. lia.
Qed.

End random.

(** * The grid and food placement *)

Section loops.
Context {A B : Type}.

Lemma foldl_snoc_unless (P : A → Prop) `{!∀ i, Decision (P i)} (f : A → B)
  (l : list A) (acc : list B) :
  foldl (λ acc i, if decide (P i) then acc else acc ++ [f i]) acc l
  = acc ++ (f <$> filter (λ i, ¬ P i) l).
Proof.
  revert acc. induction l as [|i l IH]; intros acc; csimpl.
  - by rewrite app_nil_r.
  - rewrite IH, filter_cons. destruct (decide (P i)).
    + by rewrite decide_False by tauto.
    + rewrite decide_True by done. by rewrite <-app_assoc.
Qed.

Lemma foldl_append (g : A → list B) (l : list A) (acc : list B) :
  foldl (λ acc j, acc ++ g j) acc l = acc ++ (l ≫= g).
Proof.
  revert acc. induction l as [|j l IH]; intros acc; csimpl.
  - by rewrite app_nil_r.
  - by rewrite IH, <-app_assoc.
Qed.

Lemma filter_bind (P : B → Prop) `{!∀ b, Decision (P b)} (g : A → list B)
  (l : list A) :
  filter P (l ≫= g) = l ≫= (λ j, filter P (g j)).
Proof.
  induction l as [|j l IH]; csimpl; [done|].
  by rewrite filter_app, IH.
Qed.

Lemma filter_bind_singleton (P : B → Prop) `{!∀ b, Decision (P b)}
  (f : A → B) (l : list A) :
  filter P (l ≫= (λ i, [f i])) = f <$> filter (λ i, P (f i)) l.
Proof.
  induction l as [|i l IH]; csimpl; [done|].
  rewrite !filter_cons, IH. by destruct (decide (P (f i))).
Qed.

End loops.

Lemma foldl_ext {A B} (f g : A → B → A) (l : list B) (a : A) :
  (∀ a b, f a b = g a b) → foldl f a l = foldl g a l.
Proof.
  intros Hfg. revert a. induction l as [|b l IH]; intros a; simpl; [done|].
  by rewrite Hfg, IH.
Qed.

Section food.
Implicit Types (occupied : list Cell) (c : Cell) (u : JS.unit_interval).

(** Looking a key up in [occupiedKey] is looking the cell up in
    [occupied]. *)
Lemma occupiedKey_has occupied c :
  cellKey c ∈ (list_to_set (cellKey <$> occupied) : gset string)
  ↔ c ∈ occupied.
Proof. by rewrite elem_of_list_to_set, (list_elem_of_fmap_inj cellKey). Qed.

(** The loops compute the spec's [freeCells]. *)
Lemma spaces_freeCells occupied : spaces occupied = freeCells occupied.
Proof.
  unfold spaces, freeCells, rowMajor, JS.for_range.
  rewrite filter_bind.
  set (occupiedKey := list_to_set (cellKey <$> occupied) : gset string).
  rewrite (foldl_ext _ (λ acc j, acc ++
    ((λ i, mkCell i j) <$>
       filter (λ i, cellKey (mkCell i j) ∉ occupiedKey)
         (seqZ 0 GRID_SIZE)))); last first.
  { intros acc j.
    apply (foldl_snoc_unless
             (λ i, cellKey (mkCell i j) ∈ occupiedKey) (λ i, mkCell i j)). }
  rewrite foldl_append, app_nil_l.
  apply list_bind_ext; [|done]. intros j.
  rewrite filter_bind_singleton. f_equal.
  apply list_filter_iff. intros i. unfold occupiedKey.
  by rewrite occupiedKey_has.
Qed.

Lemma elem_of_rowMajor c : c ∈ rowMajor ↔ inBounds c.
Proof.
  unfold rowMajor, inBounds. rewrite list_elem_of_bind. split.
  - intros (j & (i & Hc & Hi)%list_elem_of_bind & Hj).
    apply list_elem_of_singleton in Hc as ->. simpl.
    apply elem_of_seqZ in Hi, Hj. lia.
  - intros [Hx Hy]. exists (y c). split; [|apply elem_of_seqZ; lia].
    apply list_elem_of_bind. exists (x c). split; [|apply elem_of_seqZ; lia].
    destruct c. apply list_elem_of_singleton. done.
Qed.

Lemma elem_of_freeCells occupied c :
  c ∈ freeCells occupied ↔ inBounds c ∧ c ∉ occupied.
Proof.
  unfold freeCells. rewrite list_elem_of_filter, elem_of_rowMajor. tauto.
Qed.

Lemma elem_of_spaces occupied c :
  c ∈ spaces occupied ↔ inBounds c ∧ c ∉ occupied.
Proof. rewrite spaces_freeCells. apply elem_of_freeCells. Qed.

Lemma rowMajor_sorted : StronglySorted rowMajor_lt rowMajor.
Proof. apply (bool_decide_unpack _). vm_compute. reflexivity. Qed.

Lemma freeCells_sorted occupied :
  StronglySorted rowMajor_lt (freeCells occupied).
Proof.
  unfold freeCells. generalize rowMajor_sorted.
  generalize rowMajor. intros l. induction 1 as [|d l Hl IH Hd]; [constructor|].
  rewrite filter_cons. destruct (decide (d ∉ occupied)); [|done].
  constructor; [done|].
  apply Forall_forall. intros e [_ He]%list_elem_of_filter.
  by eapply Forall_forall in Hd.
Qed.

Lemma getRandomFood_free u occupied :
  spaces occupied ≠ [] → getRandomFood u occupied ∈ spaces occupied.
Proof.
  intros Hne. unfold getRandomFood.
  rewrite decide_False by (by destruct (spaces occupied)).
  destruct (randomIndex_lookup u _ Hne) as [c Hc]. rewrite Hc. simpl.
  unfold JS.index in Hc. case_decide; [|done].
  by eapply list_elem_of_lookup_2.
Qed.

(** Every free cell is drawn by some result of [Math.random()]. *)
Lemma getRandomFood_any occupied c :
  c ∈ spaces occupied → ∃ u, getRandomFood u occupied = c.
Proof.
  intros [i Hi]%list_elem_of_lookup.
  pose proof (lookup_lt_Some _ _ _ Hi) as Hlt.
  set (n := length (spaces occupied)) in *.
  set (q := (Z.of_nat i # Pos.of_nat n)%Q).
  assert (Z.pos (Pos.of_nat n) = Z.of_nat n) as Hn.
  { rewrite <-(Nat2Pos.id n) at 2 by lia. by rewrite positive_nat_Z. }
  assert (Qle_bool 0 q && negb (Qle_bool 1 q) = true) as Hq.
  { unfold Qle_bool, q; simpl Qnum; simpl Qden.
    apply andb_true_iff. split; [apply Z.leb_le; lia|].
    apply negb_true_iff, Z.leb_gt. rewrite Hn. lia. }
  exists {| JS.value := q; JS.in_range := Hq |}.
  unfold getRandomFood. fold n. rewrite decide_False by lia.
  assert (randomIndex {| JS.value := q; JS.in_range := Hq |} n = Z.of_nat i)
    as ->.
  { unfold randomIndex, JS.Math_floor, Qfloor, q, Qmult, inject_Z.
    simpl Qnum. simpl Qden. rewrite Pos.mul_1_r, Hn.
    apply Z.div_mul. lia. }
  unfold JS.index. rewrite decide_True by lia. by rewrite Nat2Z.id, Hi.
Qed.

Lemma getRandomFood_full u occupied :
  spaces occupied = [] → getRandomFood u occupied = mkCell 0 0.
Proof. intros Hnil. unfold getRandomFood. by rewrite Hnil. Qed.

End food.

Arguments getRandomFood : simpl never.
Arguments createInitialSnake : simpl never.
Arguments KEY_TO_DIRECTION : simpl never.
Arguments JS.String_of : simpl never.
Arguments JS.parseInt : simpl never.
Arguments JS.toLowerCase : simpl never.


(** * One tick *)

Section tick.
Implicit Types (s : State) (u : JS.unit_interval) (d c : Cell).

Lemma cellsEqual_true c d : cellsEqual c d = true ↔ c = d.
Proof.
  unfold cellsEqual. rewrite andb_true_iff, !bool_decide_eq_true.
  destruct c, d; simpl. split; [by intros [-> ->]|by intros [= -> ->]].
Qed.

Lemma hitsSelf_true c (body : list Cell) :
  existsb (λ segment, cellsEqual segment c) body = true ↔ c ∈ body.
Proof.
  rewrite existsb_exists. setoid_rewrite cellsEqual_true.
  setoid_rewrite <-list_elem_of_In. split; [by intros (? & ? & ->)|eauto].
Qed.

Lemma hitsWall_true c :
  (x c <? 0) || (y c <? 0) || (x c >=? GRID_SIZE) || (y c >=? GRID_SIZE) = true
  ↔ x c < 0 ∨ y c < 0 ∨ GRID_SIZE ≤ x c ∨ GRID_SIZE ≤ y c.
Proof.
  rewrite !orb_true_iff, !Z.ltb_lt, !Z.geb_le. lia.
Qed.

Lemma hitsWall_false c :
  (x c <? 0) || (y c <? 0) || (x c >=? GRID_SIZE) || (y c >=? GRID_SIZE) = false
  ↔ inBounds c.
Proof.
  rewrite <-not_true_iff_false, hitsWall_true. unfold inBounds. lia.
Qed.

(** [step] on a snake with head [hd], written with the candidate head. *)
Lemma step_cons u d s hd tl :
  snake s = hd :: tl →
  step u d s =
    if (x (advance hd d) <? 0) || (y (advance hd d) <? 0)
       || (x (advance hd d) >=? GRID_SIZE) || (y (advance hd d) >=? GRID_SIZE)
       || existsb (λ segment, cellsEqual segment (advance hd d)) (snake s)
    then Some (handleGameOver s)
    else if cellsEqual (advance hd d) (food s) then
      Some (s |> setFood (getRandomFood u (advance hd d :: snake s))
              |> setScore (score s + 10)
              |> setHighScore (if score s + 10 >? highScore s
                               then score s + 10 else highScore s)
              |> setSpeed (JS.Math_max SPEED_FLOOR (speed s - SPEED_STEP))
              |> setSnake (advance hd d :: snake s))
    else Some (s |> setSnake (removelast (advance hd d :: snake s))).
Proof. intros Hs. unfold step. by rewrite Hs. Qed.

Lemma step_collision u d s hd tl :
  snake s = hd :: tl →
  x (advance hd d) < 0 ∨ y (advance hd d) < 0
  ∨ GRID_SIZE ≤ x (advance hd d) ∨ GRID_SIZE ≤ y (advance hd d)
  ∨ advance hd d ∈ snake s →
  step u d s = Some (handleGameOver s).
Proof.
  intros Hs Hhit. rewrite (step_cons _ _ _ _ _ Hs).
  assert (((x (advance hd d) <? 0) || (y (advance hd d) <? 0)
           || (x (advance hd d) >=? GRID_SIZE)
           || (y (advance hd d) >=? GRID_SIZE))
          || existsb (λ segment, cellsEqual segment (advance hd d)) (snake s)
          = true) as ->; [|done].
  rewrite orb_true_iff, hitsWall_true, hitsSelf_true. tauto.
Qed.

Lemma step_free u d s hd tl :
  snake s = hd :: tl →
  inBounds (advance hd d) → advance hd d ∉ snake s →
  step u d s =
    if cellsEqual (advance hd d) (food s) then
      Some (s |> setFood (getRandomFood u (advance hd d :: snake s))
              |> setScore (score s + 10)
              |> setHighScore (if score s + 10 >? highScore s
                               then score s + 10 else highScore s)
              |> setSpeed (JS.Math_max SPEED_FLOOR (speed s - SPEED_STEP))
              |> setSnake (advance hd d :: snake s))
    else Some (s |> setSnake (removelast (advance hd d :: snake s))).
Proof.
  intros Hs Hin Hself. rewrite (step_cons _ _ _ _ _ Hs).
  assert (((x (advance hd d) <? 0) || (y (advance hd d) <? 0)
           || (x (advance hd d) >=? GRID_SIZE)
           || (y (advance hd d) >=? GRID_SIZE))
          || existsb (λ segment, cellsEqual segment (advance hd d)) (snake s)
          = false) as ->; [|done].
  apply orb_false_iff. split; [by apply hitsWall_false|].
  apply not_true_iff_false. by rewrite hitsSelf_true.
Qed.

(** A tick of a live interval: take the pending direction, then [step]. *)
Lemma tick_eq u s (p : Z) :
  loopRef s = Some p →
  handle u TimerFire s = render <$> step u (activeDirection s) (consume s).
Proof. intros Hp. unfold handle. simpl. by rewrite Hp. Qed.

Lemma consume_state s :
  snake (consume s) = snake s ∧ food (consume s) = food s
  ∧ score (consume s) = score s ∧ speed (consume s) = speed s
  ∧ highScore (consume s) = highScore s
  ∧ isRunning (consume s) = isRunning s
  ∧ isGameOver (consume s) = isGameOver s
  ∧ direction (consume s) = default (direction s) (nextDirectionRef s)
  ∧ directionRef (consume s) = activeDirection s
  ∧ nextDirectionRef (consume s) = None.
Proof.
  unfold consume, activeDirection.
  by destruct (nextDirectionRef s) eqn:Hn.
Qed.

End tick.

(** * The state machine *)

Section invariants.
Implicit Types (s : State) (u : JS.unit_interval) (e : Event) (d : Cell).

Lemma KEY_TO_DIRECTION_unit (key : string) d :
  KEY_TO_DIRECTION !! key = Some d → isUnit d.
Proof.
  revert key d. change (map_Forall (λ _ d, isUnit d) KEY_TO_DIRECTION).
  unfold isUnit. apply (bool_decide_unpack _). by vm_compute.
Qed.

Lemma pad_direction_unit (p : Pad) : isUnit (KEY_TO_DIRECTION !!! padKey p).
Proof. unfold isUnit. destruct p; vm_compute; set_solver. Qed.

Lemma unit_not_self_opposite d : isUnit d → ¬ opposite d d.
Proof.
  unfold isUnit, opposite. intros Hd [Hx Hy].
  set_unfold.
  destruct Hd as [? | [? | [? | [? | []]]]]; subst; simpl in *; lia.
Qed.

Lemma removelast_Board_parts (body : list Cell) :
  body ≠ [] → NoDup body → Forall inBounds body →
  NoDup (removelast body) ∧ Forall inBounds (removelast body).
Proof.
  intros Hne Hnd Hin.
  rewrite (app_removelast_last (mkCell 0 0) Hne) in Hnd, Hin.
  apply NoDup_app in Hnd as (Hnd & _). by apply Forall_app in Hin as [Hin _].
Qed.

Lemma step_board u d s s' :
  step u d s = Some s' →
  Board (snake s) (speed s) → Board (snake s') (speed s').
Proof.
  intros Hstep (Hne & Hnd & Hin & Hsp).
  destruct (snake s) as [|hd tl] eqn:Hs; [done|].
  rewrite (step_cons _ _ _ _ _ Hs) in Hstep. rewrite <-Hs in *.
  destruct (_ || existsb _ _) eqn:Hhit.
  { simplify_eq. unfold Board. simpl. split_and!; try done; lia. }
  apply orb_false_iff in Hhit as [Hwall%hitsWall_false Hself].
  apply not_true_iff_false in Hself. rewrite hitsSelf_true in Hself.
  assert (NoDup (advance hd d :: snake s)) as Hnd' by by constructor.
  assert (Forall inBounds (advance hd d :: snake s)) as Hin'
    by by constructor.
  destruct (cellsEqual _ _); simplify_eq; unfold Board; simpl.
  - split_and!; try done; unfold JS.Math_max, SPEED_FLOOR, SPEED_STEP,
      INITIAL_SPEED in *; lia.
  - destruct (removelast_Board_parts (advance hd d :: snake s)) as [? ?];
      [done..|].
    split_and!; try done; try lia. rewrite Hs. by destruct tl.
Qed.

(** [render] writes the two refs and the storage, nothing else. *)
Lemma render_eq s :
  render s
  = mkState (snake s) (direction s) (food s) (isRunning s) (isGameOver s)
      (score s) (highScore s) (speed s) (nextDirectionRef s) (direction s)
      (if negb (isRunning s) || isGameOver s then None else Some (speed s))
      (Some (JS.String_of (highScore s))).
Proof.
  unfold render, timerEffect, persistEffect, directionEffect; simpl.
  by destruct (negb (isRunning s) || isGameOver s).
Qed.

Lemma Inv_render s :
  Board (snake s) (speed s) → isUnit (direction s) →
  (∀ d, nextDirectionRef s = Some d → isUnit d ∧ ¬ opposite (direction s) d) →
  Inv (render s).
Proof. intros ???. rewrite render_eq. by split. Qed.

Lemma Board_initial : Board createInitialSnake INITIAL_SPEED.
Proof.
  split_and!.
  - vm_compute. discriminate.
  - apply (bool_decide_unpack _). vm_compute. reflexivity.
  - apply (bool_decide_unpack _). vm_compute. reflexivity.
  - unfold SPEED_FLOOR, INITIAL_SPEED. lia.
  - lia.
Qed.

Lemma Inv_mount u stored : Inv (mount u stored).
Proof.
  apply Inv_render.
  - unfold loadEffect, initialState; simpl.
    repeat case_match; apply Board_initial.
  - unfold loadEffect, initialState; simpl.
    repeat case_match; simpl; unfold isUnit; set_solver.
  - unfold loadEffect, initialState; simpl. by repeat case_match.
Qed.

Lemma step_refs u d s s' :
  step u d s = Some s' →
  direction s' = direction s ∧ directionRef s' = directionRef s
  ∧ nextDirectionRef s' = nextDirectionRef s ∧ loopRef s' = loopRef s
  ∧ localStorage s' = localStorage s.
Proof.
  unfold step. destruct (JS.index (snake s) 0); simpl; [|done].
  intros Hstep. by repeat case_match; simplify_eq.
Qed.

(** The two forms of the reversal test, as propositions. *)
Lemma reversal_test_false (c d : Cell) :
  (x c + x d =? 0) && (y c + y d =? 0) = false ↔ ¬ opposite c d.
Proof. unfold opposite. rewrite andb_false_iff, !Z.eqb_neq. lia. Qed.

Lemma reversal_test_pad (c d : Cell) :
  negb (x c + x d =? 0) || negb (y c + y d =? 0) = true ↔ ¬ opposite c d.
Proof.
  unfold opposite. rewrite orb_true_iff, !negb_true_iff, !Z.eqb_neq. lia.
Qed.

(** The outcomes of a key press. *)
Lemma handleKeyDown_cases u (key : string) s :
  let s' := handleKeyDown u key s in
  (normalizedKey key = " " ∧ isGameOver s = true ∧ s' = resetGame u true s)
  ∨ (normalizedKey key = " " ∧ isGameOver s = false
     ∧ s' = setIsRunning (negb (isRunning s)) s)
  ∨ (normalizedKey key ≠ " " ∧ proposedDirection (KeyDown key) = None
     ∧ s' = s)
  ∨ (∃ d, normalizedKey key ≠ " " ∧ proposedDirection (KeyDown key) = Some d
      ∧ opposite (directionRef s) d ∧ s' = s)
  ∨ (∃ d, normalizedKey key ≠ " " ∧ proposedDirection (KeyDown key) = Some d
      ∧ isUnit d ∧ ¬ opposite (directionRef s) d
      ∧ s' = (if negb (isRunning s) && negb (isGameOver s)
              then setIsRunning true (setNextDirectionRef (Some d) s)
              else setNextDirectionRef (Some d) s)).
Proof.
  unfold handleKeyDown, proposedDirection. fold (normalizedKey key).
  destruct (decide (normalizedKey key = " ")) as [Hsp|Hsp].
  { destruct (isGameOver s) eqn:Hover; simpl; [by left|by right; left]. }
  destruct (KEY_TO_DIRECTION !! normalizedKey key) as [d|] eqn:Hk; simpl;
    [|by right; right; left].
  destruct ((_ =? 0) && (_ =? 0)) eqn:Htest.
  - do 3 right. left. exists d. split_and!; try done.
    apply dec_stable. by rewrite <-reversal_test_false, Htest.
  - do 4 right. exists d. split_and!; try done.
    + by eapply KEY_TO_DIRECTION_unit.
    + by apply reversal_test_false.
Qed.

Lemma onClickPad_cases (p : Pad) s :
  let s' := onClickPad p s in
  let d := KEY_TO_DIRECTION !!! padKey p in
  (opposite (directionRef s) d ∧ s' = s)
  ∨ (¬ opposite (directionRef s) d
     ∧ s' = (if negb (isRunning s)
             then setIsRunning true (setNextDirectionRef (Some d) s)
             else setNextDirectionRef (Some d) s)).
Proof.
  unfold onClickPad. simpl.
  destruct (negb _ || negb _) eqn:Htest.
  - right. split; [by apply reversal_test_pad|done].
  - left. split; [|done].
    apply dec_stable. by rewrite <-reversal_test_pad, Htest.
Qed.

Lemma Inv_resetGame u (autoStart : bool) s :
  Inv (render (resetGame u autoStart s)).
Proof.
  apply Inv_render; simpl;
    [apply Board_initial|unfold isUnit; set_solver|done].
Qed.

Lemma Inv_handle s u e s' : Inv s → handle u e s = Some s' → Inv s'.
Proof.
  intros HI. unfold handle. intros Hh.
  apply fmap_Some in Hh as (s1 & Hd & ->).
  destruct HI as [Hsnake Hdir Hunit Hpend Htimer Hstore].
  rewrite Hdir in Hpend. clear Htimer Hstore.
  destruct e; cbv beta iota delta [dispatch] in Hd.
  - (* TimerFire *)
    destruct (loopRef s); simplify_eq; [|by apply Inv_render].
    unfold intervalCallback in Hd.
    destruct (step_refs _ _ _ _ Hd) as (Hd1 & _ & Hd2 & _).
    apply step_board in Hd as Hne;
      [|by destruct (nextDirectionRef s)].
    apply Inv_render; [done|..]; rewrite ?Hd1, ?Hd2.
    + destruct (nextDirectionRef s) as [d|] eqn:Hn; simpl; [|done].
      by apply Hpend.
    + destruct (nextDirectionRef s) as [d|] eqn:Hn; simpl; [done|].
      intros d' Hd'. congruence.
  - (* KeyDown *)
    simplify_eq.
    destruct (handleKeyDown_cases u key s)
      as [(_ & _ & Heq)|[(_ & _ & Heq)|[(_ & _ & Heq)|
          [(d & _ & _ & _ & Heq)|(d & _ & _ & Hd & Hopp & Heq)]]]];
      rewrite Heq; clear Heq;
      [apply Inv_resetGame|by apply Inv_render..|].
    rewrite Hdir in Hopp.
    destruct (negb _ && negb _); apply Inv_render; simpl; try done.
    all: by intros d' ?; simplify_eq.
  - (* ClickStart *)
    simplify_eq. unfold handleStart.
    destruct (showStart s); [|by apply Inv_render].
    destruct (isGameOver s); [apply Inv_resetGame|by apply Inv_render].
  - (* ClickPause *)
    simplify_eq. unfold handlePause.
    by destruct (isRunning s); apply Inv_render.
  - (* ClickResume *)
    simplify_eq. unfold handleResume.
    by destruct (showResume s), (negb (isGameOver s)); apply Inv_render.
  - (* ClickRestart *)
    simplify_eq. unfold handleRestart.
    destruct (restartDisabled s); [by apply Inv_render|apply Inv_resetGame].
  - (* ClickPad *)
    simplify_eq.
    destruct (onClickPad_cases p s) as [[_ Heq]|[Hopp Heq]];
      rewrite Heq; clear Heq.
    { by apply Inv_render. }
    rewrite Hdir in Hopp. pose proof (pad_direction_unit p) as Hd.
    destruct (negb (isRunning s)); apply Inv_render; simpl; try done.
    all: by intros d' ?; simplify_eq.
Qed.

Lemma reachable_Inv s : reachable s → Inv s.
Proof.
  induction 1 as [u stored|s u e s' _ IH Hh];
    [apply Inv_mount|by eapply Inv_handle].
Qed.

(** No event raises: every handler returns. *)
Lemma handle_total s u e : Inv s → is_Some (handle u e s).
Proof.
  intros HI. unfold handle. apply fmap_is_Some.
  destruct e; simpl; try done.
  destruct (loopRef s); [|done].
  unfold intervalCallback, step, JS.index.
  destruct (inv_board _ HI) as (Hne & _).
  destruct (nextDirectionRef s); simpl;
    destruct (snake s); simpl; try done; by repeat case_match.
Qed.

End invariants.


(** * Reading the stored high score *)

Section parsing.
Implicit Types (s str ws ds rest : string) (c : ascii).

Lemma isDigit_char c :
  JS.isDigit c = true →
  JS.isWhiteSpace c = false ∧ c ≠ "+"%char ∧ c ≠ "-"%char
  ∧ 0 ≤ JS.digitValue c ≤ 9.
Proof.
  unfold JS.isDigit, JS.isWhiteSpace, JS.digitValue.
  intros Hd%bool_decide_eq_true. split_and!.
  - apply bool_decide_eq_false. set_unfold. lia.
  - intros ->. change (JS.code "+") with 43%N in Hd. lia.
  - intros ->. change (JS.code "-") with 45%N in Hd. lia.
  - lia.
  - lia.
Qed.

Lemma trimStart_app ws s :
  allWhiteSpace ws = true → JS.trimStart (ws +:+ s) = JS.trimStart s.
Proof.
  induction ws as [|c ws IH]; simpl; [done|].
  intros [-> Hws]%andb_prop. by apply IH.
Qed.

Lemma trimStart_split s :
  ∃ ws, s = ws +:+ JS.trimStart s ∧ allWhiteSpace ws = true.
Proof.
  induction s as [|c s (ws & Hs & Hws)]; simpl; [by exists ""|].
  destruct (JS.isWhiteSpace c) eqn:Hc; [|by exists ""].
  exists (String c ws). simpl. rewrite Hc, Hws. split; [|done].
  change (String c s = String c (ws +:+ JS.trimStart s)). by f_equal.
Qed.

Lemma trimStart_cons c s :
  JS.isWhiteSpace c = false → JS.trimStart (String c s) = String c s.
Proof. intros Hc. simpl. by rewrite Hc. Qed.

Lemma digitsPrefix_nondigit (acc : option Z) rest :
  startsWithDigit rest = false → JS.digitsPrefix acc rest = acc.
Proof. destruct rest as [|c rest]; simpl; [done|]. by intros ->. Qed.

Lemma digitsPrefix_run (acc : Z) ds rest :
  allDigits ds = true → startsWithDigit rest = false →
  JS.digitsPrefix (Some acc) (ds +:+ rest) = Some (decimalValue acc ds).
Proof.
  revert acc. induction ds as [|c ds IH]; intros acc Hds Hrest.
  - by apply digitsPrefix_nondigit.
  - simpl in Hds. apply andb_prop in Hds as [Hc Hds].
    change (String c ds +:+ rest) with (String c (ds +:+ rest)).
    cbn [JS.digitsPrefix decimalValue]. rewrite Hc. by apply IH.
Qed.

Lemma digitsPrefix_digits (acc : option Z) ds rest :
  ds ≠ "" → allDigits ds = true → startsWithDigit rest = false →
  JS.digitsPrefix acc (ds +:+ rest) = Some (decimalValue (default 0 acc) ds).
Proof.
  intros Hne Hds Hrest. destruct ds as [|c ds]; [done|].
  simpl in Hds. apply andb_prop in Hds as [Hc Hds].
  change (String c ds +:+ rest) with (String c (ds +:+ rest)).
  cbn [JS.digitsPrefix decimalValue]. rewrite Hc. by apply digitsPrefix_run.
Qed.

Lemma split_digits s :
  ∃ ds rest, s = ds +:+ rest ∧ allDigits ds = true
             ∧ startsWithDigit rest = false.
Proof.
  induction s as [|c s (ds & rest & -> & Hds & Hrest)]; [by exists "", ""|].
  destruct (JS.isDigit c) eqn:Hc.
  - exists (String c ds), rest. simpl. by rewrite Hc, Hds.
  - exists "", (String c (ds +:+ rest)). by simpl.
Qed.

Lemma digitsPrefix_Some s (n : Z) :
  JS.digitsPrefix None s = Some n →
  ∃ ds rest, s = ds +:+ rest ∧ ds ≠ "" ∧ allDigits ds = true
             ∧ startsWithDigit rest = false.
Proof.
  destruct (split_digits s) as (ds & rest & -> & Hds & Hrest).
  intros Hn. exists ds, rest. split_and!; try done.
  intros ->. simpl in Hn. by rewrite digitsPrefix_nondigit in Hn.
Qed.

(** [parseInt] reads the number of a numeric prefix. *)
Lemma parseInt_numericPrefix str (sg : Sign) ds :
  numericPrefix str sg ds →
  JS.parseInt str = Some (signFactor sg * decimalValue 0 ds).
Proof.
  intros (ws & rest & -> & Hws & Hne & Hds & Hrest).
  unfold JS.parseInt. rewrite trimStart_app by done.
  pose proof (digitsPrefix_digits None ds rest Hne Hds Hrest) as Hval.
  destruct sg; simpl signString; simpl signFactor.
  - destruct ds as [|c ds']; [done|]. simpl in Hds.
    apply andb_prop in Hds as [(Hsp & Hplus & Hminus & _)%isDigit_char _].
    change ("" +:+ String c ds' +:+ rest) with (String c (ds' +:+ rest)).
    rewrite trimStart_cons by done.
    rewrite decide_False by done. rewrite decide_False by tauto.
    change (String c (ds' +:+ rest)) with (String c ds' +:+ rest).
    by rewrite Hval.
  - change ("+" +:+ ds +:+ rest) with (String "+" (ds +:+ rest)).
    rewrite trimStart_cons by done.
    rewrite decide_False by done. rewrite decide_True by tauto.
    by rewrite Hval.
  - change ("-" +:+ ds +:+ rest) with (String "-" (ds +:+ rest)).
    rewrite trimStart_cons by done.
    rewrite decide_True by done. rewrite decide_True by tauto.
    by rewrite Hval.
Qed.

(** It reads a number from no other string. *)
Lemma parseInt_Some str (n : Z) :
  JS.parseInt str = Some n → ∃ sg ds, numericPrefix str sg ds.
Proof.
  unfold JS.parseInt, numericPrefix.
  destruct (trimStart_split str) as (ws & Hstr & Hws).
  destruct (JS.trimStart str) as [|c s'] eqn:Ht; [done|].
  intros (m & Hm & _)%fmap_Some.
  destruct (decide (c = "-"%char)) as [->|Hminus].
  { rewrite decide_True in Hm by tauto.
    apply digitsPrefix_Some in Hm as (ds & rest & -> & ? & ? & ?).
    exists MinusSign, ds, ws, rest. by rewrite Hstr at 1. }
  destruct (decide (c = "+"%char)) as [->|Hplus].
  { rewrite decide_True in Hm by tauto.
    apply digitsPrefix_Some in Hm as (ds & rest & -> & ? & ? & ?).
    exists PlusSign, ds, ws, rest. by rewrite Hstr at 1. }
  rewrite decide_False in Hm by tauto.
  apply digitsPrefix_Some in Hm as (ds & rest & Heq & ? & ? & ?).
  exists NoSign, ds, ws, rest. simpl. rewrite <-Heq. by rewrite Hstr at 1.
Qed.

Lemma decimalValue_nonneg (acc : Z) ds :
  0 ≤ acc → allDigits ds = true → 0 ≤ decimalValue acc ds.
Proof.
  revert acc. induction ds as [|c ds IH]; intros acc Hacc Hds; simpl; [done|].
  simpl in Hds. apply andb_prop in Hds as [Hc%isDigit_char Hds].
  apply IH; [lia|done].
Qed.

Lemma append_empty_r str : str +:+ "" = str.
Proof.
  induction str as [|c str IH]; [done|].
  change (String c (str +:+ "") = String c str). by rewrite IH.
Qed.

Lemma wellFormedNumeral_prefix str :
  wellFormedNumeral str = true → numericPrefix str NoSign str.
Proof.
  unfold wellFormedNumeral.
  intros [Hne%negb_true_iff%bool_decide_eq_false Hds]%andb_prop.
  exists "", "". split_and!; try done.
  change (str = str +:+ ""). by rewrite append_empty_r.
Qed.

(** *** What [String] writes, [parseInt] reads back *)







(** The high score after mounting, as a function of the stored string. *)
Lemma mount_highScore (u : JS.unit_interval) (stored : option string) :
  highScore (mount u stored)
  = match stored with
    | Some str => if decide (str = "") then 0 else default 0 (JS.parseInt str)
    | None => 0
    end.
Proof.
  unfold mount. rewrite render_eq. simpl. unfold loadEffect. simpl.
  destruct stored as [str|]; [|done].
  destruct (decide (str = "")); [done|].
  by destruct (JS.parseInt str).
Qed.


End parsing.

(** * The claims *)

Section claims.
Implicit Types (s : State) (u : JS.unit_interval) (d c : Cell).

Lemma spaces_nil_iff (occupied : list Cell) :
  spaces occupied = [] ↔ ∀ c, inBounds c → c ∈ occupied.
Proof.
  split.
  - intros Hnil c Hc. destruct (decide (c ∈ occupied)) as [|Hfree]; [done|].
    assert (c ∈ spaces occupied) as Hin by by apply elem_of_spaces.
    rewrite Hnil in Hin. by apply not_elem_of_nil in Hin.
  - intros Hfull. destruct (spaces occupied) as [|c l] eqn:Hsp; [done|].
    assert (c ∈ spaces occupied) as [Hc Hfree]%elem_of_spaces
      by (rewrite Hsp; left).
    by destruct Hfree; apply Hfull.
Qed.

(** C8.  For every occupied list, the array [spaces] built by
    [getRandomFood] is the list of the grid cells that are not occupied, in
    row-major order ([y] outer, [x] inner): it is equal to the filtered
    row-major enumeration, its members are exactly the in-bounds cells that
    are not occupied, and it is strictly increasing for the row-major order.
    When it is not empty the result is one of its members, hence an in-bounds
    free cell; when it is empty the result is the cell (0,0), which is then
    occupied. *)
Theorem C8_getRandomFood_free_cell u (occupied : list Cell) :
  spaces occupied = freeCells occupied
  ∧ (∀ c, c ∈ spaces occupied ↔ inBounds c ∧ c ∉ occupied)
  ∧ StronglySorted rowMajor_lt (spaces occupied)
  ∧ (spaces occupied ≠ [] →
       getRandomFood u occupied ∈ spaces occupied
       ∧ inBounds (getRandomFood u occupied)
       ∧ getRandomFood u occupied ∉ occupied)
  ∧ (spaces occupied = [] →
       getRandomFood u occupied = mkCell 0 0 ∧ mkCell 0 0 ∈ occupied).
Proof.
  split; [apply spaces_freeCells|].
  split; [apply elem_of_spaces|].
  split; [rewrite spaces_freeCells; apply freeCells_sorted|].
  split.
  - intros Hne. pose proof (getRandomFood_free u occupied Hne) as Hin.
    split; [done|]. by apply elem_of_spaces.
  - intros Hnil. split; [by apply getRandomFood_full|].
    eapply spaces_nil_iff; [done|]. unfold inBounds, GRID_SIZE; simpl; lia.
Qed.

(** Both branches of C8 on concrete boards: half-way through the free cells
    of the initial board, and on a board with every cell occupied. *)
Lemma C8_getRandomFood_witness :
  (spaces createInitialSnake ≠ []
   ∧ getRandomFood u_half createInitialSnake = mkCell 14 12
   ∧ getRandomFood u_half createInitialSnake ∈ spaces createInitialSnake)
  ∧ (spaces rowMajor = []
     ∧ getRandomFood u_half rowMajor = mkCell 0 0
     ∧ mkCell 0 0 ∈ rowMajor).
Proof.
  assert (spaces createInitialSnake ≠ []) as Hne.
  { vm_compute. discriminate. }
  assert (spaces rowMajor = []) as Hnil.
  { vm_compute. reflexivity. }
  pose proof (C8_getRandomFood_free_cell u_half createInitialSnake)
    as (_ & _ & _ & Hfree & _).
  pose proof (C8_getRandomFood_free_cell u_half rowMajor)
    as (_ & _ & _ & _ & Hfull).
  split.
  - split; [exact Hne|]. split; [vm_compute; reflexivity|].
    exact (proj1 (Hfree Hne)).
  - split; [exact Hnil|]. exact (Hfull Hnil).
Defined.

(** What a collision leaves behind, shared by C1 and C3. *)
Lemma tick_collision u s (p : Z) hd tl :
  loopRef s = Some p →
  snake s = hd :: tl →
  x (advance hd (activeDirection s)) < 0
  ∨ y (advance hd (activeDirection s)) < 0
  ∨ GRID_SIZE ≤ x (advance hd (activeDirection s))
  ∨ GRID_SIZE ≤ y (advance hd (activeDirection s))
  ∨ advance hd (activeDirection s) ∈ snake s →
  handle u TimerFire s = Some (render (handleGameOver (consume s))).
Proof.
  intros Hp Hs Hhit. rewrite (tick_eq _ _ _ Hp).
  destruct (consume_state s) as (Hsn & _).
  rewrite (step_collision u _ (consume s) hd tl); [done|by rewrite Hsn|].
  by rewrite Hsn.
Qed.

Lemma render_handleGameOver_consume s :
  let s' := render (handleGameOver (consume s)) in
  isGameOver s' = true ∧ isRunning s' = false ∧ loopRef s' = None
  ∧ snake s' = snake s ∧ food s' = food s ∧ score s' = score s
  ∧ speed s' = speed s ∧ highScore s' = highScore s.
Proof.
  destruct (consume_state s) as (Hsn & Hfd & Hsc & Hsp & Hhs & _).
  cbv zeta. rewrite render_eq. simpl. by rewrite Hsn, Hfd, Hsc, Hsp, Hhs.
Qed.

(** C3.  On every tick of a live interval, if the candidate next head is
    outside the grid ([x < 0], [y < 0], [x >= 25] or [y >= 25]) or is equal to
    a cell of the body as it is before the move, the tick ends in GameOver
    (the game-over flag is set, the running flag is cleared and the interval
    is cleared) and the snake is exactly the body before the move; food,
    score, speed and high score are unchanged as well.  [step] itself changes
    nothing but the two flags. *)
Theorem C3_collision_ends_run_body_unchanged u s (p : Z) hd tl :
  loopRef s = Some p →
  snake s = hd :: tl →
  x (advance hd (activeDirection s)) < 0
  ∨ y (advance hd (activeDirection s)) < 0
  ∨ GRID_SIZE ≤ x (advance hd (activeDirection s))
  ∨ GRID_SIZE ≤ y (advance hd (activeDirection s))
  ∨ advance hd (activeDirection s) ∈ snake s →
  step u (activeDirection s) s
    = Some (s |> setIsRunning false |> setIsGameOver true)
  ∧ ∃ s', handle u TimerFire s = Some s'
      ∧ isGameOver s' = true ∧ isRunning s' = false ∧ loopRef s' = None
      ∧ snake s' = snake s ∧ food s' = food s ∧ score s' = score s
      ∧ speed s' = speed s ∧ highScore s' = highScore s.
Proof.
  intros Hp Hs Hhit. split.
  - by apply (step_collision u _ s hd tl).
  - eexists. split; [by eapply tick_collision|].
    apply render_handleGameOver_consume.
Qed.

Lemma C3_collision_witness :
  loopRef atRightWall = Some 150
  ∧ snake atRightWall = mkCell 24 12 :: [mkCell 23 12; mkCell 22 12]
  ∧ GRID_SIZE ≤ x (advance (mkCell 24 12) (activeDirection atRightWall))
  ∧ ∃ s', handle u0 TimerFire atRightWall = Some s'
      ∧ isGameOver s' = true ∧ isRunning s' = false ∧ loopRef s' = None
      ∧ snake s' = snake atRightWall ∧ food s' = food atRightWall
      ∧ score s' = score atRightWall ∧ speed s' = speed atRightWall
      ∧ highScore s' = highScore atRightWall.
Proof.
  split; [reflexivity|]. split; [reflexivity|].
  split; [vm_compute; discriminate|].
  apply (C3_collision_ends_run_body_unchanged u0 atRightWall 150
           (mkCell 24 12) [mkCell 23 12; mkCell 22 12]);
    [reflexivity|reflexivity|].
  right; right; left. vm_compute. discriminate.
Defined.

Lemma tail_vacated {A} (body : list A) (t : A) :
  NoDup body → last body = Some t → t ∉ removelast body.
Proof.
  intros Hnd [l ->]%last_Some.
  rewrite removelast_last. apply NoDup_app in Hnd as (_ & Hnd & _).
  intros Hin. apply (Hnd t Hin). left.
Qed.

(** C1.  On every tick of a live interval, if the candidate next head is the
    cell the tail occupies (the last element of the body before the move),
    the tick ends in GameOver with the body unchanged.  This holds for every
    length of the snake and whether or not the cell holds the food, so in
    particular for a snake of length at least 2 that does not eat.  The test
    runs against the whole body before the move: when the body has no
    duplicates the tail cell is not among the cells that remain once the tail
    is dropped. *)
Theorem C1_moving_onto_tail_is_fatal u s (p : Z) hd tl :
  loopRef s = Some p →
  snake s = hd :: tl →
  last (snake s) = Some (advance hd (activeDirection s)) →
  (∃ s', handle u TimerFire s = Some s'
      ∧ isGameOver s' = true ∧ isRunning s' = false ∧ loopRef s' = None
      ∧ snake s' = snake s)
  ∧ (NoDup (snake s) →
       advance hd (activeDirection s) ∉ removelast (snake s)).
Proof.
  intros Hp Hs Htail. split.
  - eexists. split.
    + eapply tick_collision; [done..|].
      do 4 right. by eapply last_Some_elem_of.
    + destruct (render_handleGameOver_consume s) as (? & ? & ? & ? & _).
      done.
  - intros Hnd. by apply tail_vacated.
Qed.

Lemma C1_moving_onto_tail_witness :
  loopRef chasingTail = Some 146
  ∧ snake chasingTail = mkCell 1 0 :: [mkCell 1 1; mkCell 0 1; mkCell 0 0]
  ∧ last (snake chasingTail)
    = Some (advance (mkCell 1 0) (activeDirection chasingTail))
  ∧ (2 ≤ length (snake chasingTail))%nat
  ∧ advance (mkCell 1 0) (activeDirection chasingTail) ≠ food chasingTail
  ∧ NoDup (snake chasingTail)
  ∧ (∃ s', handle u0 TimerFire chasingTail = Some s'
       ∧ isGameOver s' = true ∧ isRunning s' = false ∧ loopRef s' = None
       ∧ snake s' = snake chasingTail)
  ∧ (advance (mkCell 1 0) (activeDirection chasingTail)
     ∉ removelast (snake chasingTail)).
Proof.
  assert (NoDup (snake chasingTail)) as Hnd
    by (apply (bool_decide_unpack _); vm_compute; reflexivity).
  destruct (C1_moving_onto_tail_is_fatal u0 chasingTail 146
              (mkCell 1 0) [mkCell 1 1; mkCell 0 1; mkCell 0 0])
    as [Hover Hvacated]; [reflexivity..|].
  split; [reflexivity|]. split; [reflexivity|]. split; [reflexivity|].
  split; [simpl; lia|]. split; [vm_compute; discriminate|].
  split; [exact Hnd|]. split; [exact Hover|exact (Hvacated Hnd)].
Defined.

(** C2.  On every tick of a live interval whose candidate next head is inside
    the grid, is not a cell of the body and is the food cell: the score grows
    by exactly 10; the new head is put in front of the unchanged body, so the
    length grows by exactly 1; the speed becomes [max 60 (speed - 4)], that
    is 4 less but never below 60; the high score becomes the maximum of the
    previous high score and the new score; the new food is an in-bounds cell
    outside the new body whenever the grid has a cell outside the new body,
    and is (0,0) when the new body covers the whole grid. *)
Theorem C2_eating_food u s (p : Z) hd tl :
  loopRef s = Some p →
  snake s = hd :: tl →
  inBounds (advance hd (activeDirection s)) →
  advance hd (activeDirection s) ∉ snake s →
  advance hd (activeDirection s) = food s →
  ∃ s', handle u TimerFire s = Some s'
    ∧ score s' = score s + 10
    ∧ snake s' = advance hd (activeDirection s) :: snake s
    ∧ length (snake s') = S (length (snake s))
    ∧ speed s' = Z.max 60 (speed s - 4)
    ∧ 60 ≤ speed s'
    ∧ (60 ≤ speed s → speed s - 4 ≤ speed s' ≤ speed s)
    ∧ (64 ≤ speed s → speed s' = speed s - 4)
    ∧ highScore s' = Z.max (highScore s) (score s')
    ∧ ((∃ c, inBounds c ∧ c ∉ snake s') →
         inBounds (food s') ∧ food s' ∉ snake s')
    ∧ ((∀ c, inBounds c → c ∈ snake s') → food s' = mkCell 0 0).
Proof.
  intros Hp Hs Hin Hself Hfood. rewrite (tick_eq _ _ _ Hp).
  destruct (consume_state s) as (Hsn & Hfd & Hsc & Hsp & Hhs & _).
  rewrite (step_free u _ (consume s) hd tl);
    [|by rewrite ?Hsn..].
  rewrite Hfd. rewrite (proj2 (cellsEqual_true _ _) Hfood).
  rewrite Hsn, Hsc, Hsp, Hhs. simpl. eexists. split; [done|].
  rewrite render_eq; simpl.
  set (nh := advance hd (activeDirection s)).
  set (body := nh :: snake s).
  unfold JS.Math_max, SPEED_FLOOR, SPEED_STEP.
  split; [done|]. split; [done|]. split; [done|]. split; [done|].
  split; [lia|]. split; [lia|]. split; [lia|].
  split. { destruct (Z.gtb_spec (score s + 10) (highScore s)); lia. }
  split.
  - intros (c & Hc & Hfree).
    assert (spaces body ≠ []) as Hne.
    { intros Hnil. apply Hfree. by eapply spaces_nil_iff. }
    by apply elem_of_spaces, getRandomFood_free.
  - intros Hfull. by apply getRandomFood_full, spaces_nil_iff.
Qed.

Lemma C2_eating_food_witness :
  loopRef aboutToEat = Some 150
  ∧ snake aboutToEat = mkCell 13 12 :: [mkCell 12 12; mkCell 11 12]
  ∧ inBounds (advance (mkCell 13 12) (activeDirection aboutToEat))
  ∧ (advance (mkCell 13 12) (activeDirection aboutToEat) ∉ snake aboutToEat)
  ∧ advance (mkCell 13 12) (activeDirection aboutToEat) = food aboutToEat
  ∧ ∃ s', handle u_half TimerFire aboutToEat = Some s'
      ∧ score s' = 10
      ∧ snake s' = [mkCell 14 12; mkCell 13 12; mkCell 12 12; mkCell 11 12]
      ∧ speed s' = 146
      ∧ highScore s' = 10
      ∧ food s' = mkCell 10 12.
Proof.
  assert (inBounds (advance (mkCell 13 12) (activeDirection aboutToEat)))
    as Hin by (vm_compute; repeat split; discriminate).
  assert (advance (mkCell 13 12) (activeDirection aboutToEat)
          ∉ snake aboutToEat) as Hfree
    by (apply (bool_decide_unpack _); vm_compute; reflexivity).
  split; [reflexivity|]. split; [reflexivity|]. split; [exact Hin|].
  split; [exact Hfree|]. split; [reflexivity|].
  destruct (C2_eating_food u_half aboutToEat 150
              (mkCell 13 12) [mkCell 12 12; mkCell 11 12])
    as (s' & Hh & Hscore & Hsnake & _ & Hspeed & _ & _ & _ & Hhigh & _).
  - reflexivity.
  - reflexivity.
  - exact Hin.
  - exact Hfree.
  - reflexivity.
  - exists s'. split; [exact Hh|].
    split; [exact Hscore|]. split; [exact Hsnake|].
    split; [exact Hspeed|]. split; [rewrite Hhigh, Hscore; reflexivity|].
    revert Hh. vm_compute. intros [= <-]. reflexivity.
Defined.

Lemma render_Inv s : Inv s → render s = s.
Proof.
  intros [_ Hdir _ _ Htimer Hstore]. rewrite render_eq.
  destruct s; simpl in *. by subst.
Qed.

Lemma initial_food_free u :
  inBounds (getRandomFood u createInitialSnake)
  ∧ getRandomFood u createInitialSnake ∉ createInitialSnake.
Proof.
  apply elem_of_spaces, getRandomFood_free. vm_compute. discriminate.
Qed.

(** C5.  Restart from any state gives the initial configuration: the
    three-cell snake (13,12), (12,12), (11,12) on the centre row with the head
    on the right, direction (1,0) in the state and in the ref, no pending
    direction, score 0, speed 150, a food cell freshly drawn among the free
    cells of that snake, no game over; and the game is running, with an
    interval armed at 150.  These are the values of the first render.  The
    high score is kept.  The Restart button, when enabled, and the space key
    during GameOver do exactly this. *)
Theorem C5_restart_gives_initial_state_running u s :
  let s' := render (handleRestart u s) in
  (snake s' = [mkCell 13 12; mkCell 12 12; mkCell 11 12]
   ∧ direction s' = mkCell 1 0 ∧ directionRef s' = mkCell 1 0
   ∧ nextDirectionRef s' = None
   ∧ score s' = 0 ∧ speed s' = 150
   ∧ food s' = getRandomFood u createInitialSnake
   ∧ inBounds (food s') ∧ (food s' ∉ snake s')
   ∧ isGameOver s' = false)
  ∧ (isRunning s' = true ∧ loopRef s' = Some 150)
  ∧ highScore s' = highScore s
  ∧ (∀ stored,
       let i := initialState u stored in
       snake s' = snake i ∧ direction s' = direction i
       ∧ directionRef s' = directionRef i
       ∧ nextDirectionRef s' = nextDirectionRef i
       ∧ score s' = score i ∧ speed s' = speed i ∧ food s' = food i
       ∧ isGameOver s' = isGameOver i)
  ∧ (restartDisabled s = false → handle u ClickRestart s = Some s')
  ∧ (isGameOver s = true → handle u (KeyDown " ") s = Some s').
Proof.
  intros s'. subst s'. unfold handleRestart. rewrite render_eq. simpl.
  destruct (initial_food_free u) as [Hin Hfree].
  split; [by split_and!|]. split; [done|]. split; [done|].
  split; [done|]. split.
  - intros Hdis. unfold handle. simpl. rewrite Hdis. simpl.
    unfold handleRestart. by rewrite render_eq.
  - intros Hover. unfold handle. simpl. unfold handleKeyDown.
    change (JS.toLowerCase " ") with " ". simpl. rewrite Hover. simpl.
    by rewrite render_eq.
Qed.

Lemma C5_restart_witness :
  restartDisabled chasingTail = false
  ∧ isGameOver (handleGameOver atRightWall) = true
  ∧ handle u0 ClickRestart chasingTail
    = Some (render (handleRestart u0 chasingTail))
  ∧ handle u_half (KeyDown " ") (handleGameOver atRightWall)
    = Some (render (handleRestart u_half (handleGameOver atRightWall)))
  ∧ snake (render (handleRestart u0 chasingTail))
    = [mkCell 13 12; mkCell 12 12; mkCell 11 12]
  ∧ isRunning (render (handleRestart u0 chasingTail)) = true.
Proof.
  pose proof (C5_restart_gives_initial_state_running u0 chasingTail)
    as (Hcfg & Hrun & _ & _ & Hclick & _).
  pose proof (C5_restart_gives_initial_state_running u_half
                (handleGameOver atRightWall))
    as (_ & _ & _ & _ & _ & Hkey).
  split; [reflexivity|]. split; [reflexivity|].
  split; [apply Hclick; reflexivity|].
  split; [apply Hkey; reflexivity|].
  split; [exact (proj1 Hcfg)|exact (proj1 Hrun)].
Defined.

(** Apart from the timer callback and from [resetGame], no handler touches
    anything but the running flag and the pending direction. *)
Lemma input_event_state s u e s' :
  firesTimer e = false → invokesReset e s = false →
  handle u e s = Some s' →
  ∃ (running : bool) (pending : option Cell),
    s' = render (s |> setNextDirectionRef pending |> setIsRunning running).
Proof.
  intros Ht Hr Hh. unfold handle in Hh.
  apply fmap_Some in Hh as (s1 & Hd & ->).
  assert (∀ t, t = s →
    ∃ running pending,
      render t = render (s |> setNextDirectionRef pending
                           |> setIsRunning running)) as Hsame.
  { intros t ->. exists (isRunning s), (nextDirectionRef s).
    by destruct s. }
  destruct e; cbv beta iota delta [dispatch] in Hd; simplify_eq.
  - (* KeyDown *)
    simpl in Hr.
    destruct (handleKeyDown_cases u key s)
      as [(Hk & Hover & _)|[(_ & _ & Heq)|[(_ & _ & Heq)|
          [(d & _ & _ & _ & Heq)|(d & _ & _ & _ & _ & Heq)]]]];
      try (rewrite Heq; clear Heq).
    + by rewrite Hover, bool_decide_eq_true_2 in Hr.
    + exists (negb (isRunning s)), (nextDirectionRef s). by destruct s.
    + by apply Hsame.
    + by apply Hsame.
    + destruct (negb _ && negb _);
        [by exists true, (Some d)|exists (isRunning s), (Some d)];
        by destruct s.
  - (* ClickStart *)
    simpl in Hr. unfold handleStart.
    destruct (showStart s); simpl in Hr; [|by apply Hsame].
    rewrite Hr. exists true, (nextDirectionRef s). by destruct s.
  - (* ClickPause *)
    unfold handlePause. destruct (isRunning s) eqn:Hrun; [|by apply Hsame].
    exists false, (nextDirectionRef s). by destruct s.
  - (* ClickResume *)
    unfold handleResume.
    destruct (showResume s), (negb (isGameOver s)); try by apply Hsame.
    exists true, (nextDirectionRef s). by destruct s.
  - (* ClickRestart *)
    simpl in Hr. apply negb_false_iff in Hr. rewrite Hr. by apply Hsame.
  - (* ClickPad *)
    destruct (onClickPad_cases p s) as [[_ Heq]|[_ Heq]];
      rewrite Heq; clear Heq; [by apply Hsame|].
    destruct (negb (isRunning s));
      [by exists true, (Some (KEY_TO_DIRECTION !!! padKey p))|].
    exists (isRunning s), (Some (KEY_TO_DIRECTION !!! padKey p)).
    by destruct s.
Qed.

Lemma quiet_keeps_direction s1 s2 :
  Inv s1 → quiet s1 s2 → Inv s2 ∧ directionRef s2 = directionRef s1.
Proof.
  intros HI Hq. induction Hq as [s|s u e s' s'' Ht Hr Hh _ IH]; [done|].
  destruct (IH (Inv_handle _ _ _ _ HI Hh)) as [HI'' ->]. split; [done|].
  destruct (input_event_state _ _ _ _ Ht Hr Hh) as (b & o & ->).
  rewrite render_eq. simpl. symmetry. apply (inv_direction _ HI).
Qed.

Lemma tick_directionRef u s (p : Z) s1 :
  Inv s → loopRef s = Some p → handle u TimerFire s = Some s1 →
  directionRef s1 = activeDirection s.
Proof.
  intros HI Hp. rewrite (tick_eq _ _ _ Hp).
  intros (t & Hstep & ->)%fmap_Some.
  destruct (step_refs _ _ _ _ Hstep) as (Hdir & _).
  destruct (consume_state s) as (_ & _ & _ & _ & _ & _ & _ & Hc & _).
  rewrite render_eq. simpl. rewrite Hdir, Hc.
  unfold activeDirection. by rewrite (inv_direction _ HI).
Qed.

Lemma active_not_opposite s d :
  Inv s → directionRef s = d → ¬ opposite d (activeDirection s).
Proof.
  intros HI <-. unfold activeDirection.
  destruct (nextDirectionRef s) as [d'|] eqn:Hn; simpl.
  - by apply (inv_pending _ HI).
  - apply unit_not_self_opposite. rewrite (inv_direction _ HI).
    apply (inv_unit _ HI).
Qed.

(** C4.  In every reachable state: (a) an input that proposes the exact
    opposite of the direction in effect ([cx + dx = 0] and [cy + dy = 0])
    changes nothing at all, so a pending direction is neither overwritten nor
    cleared, while any other proposal becomes the pending direction; (b) the
    direction a tick applies is never the exact opposite of the direction in
    effect; (c) after a tick, the direction in effect is the one that tick
    applied, and whatever inputs arrive before the next tick of the same run
    (no restart in between), the direction the next tick applies is not the
    exact opposite of it. *)
Theorem C4_no_instant_reversal s :
  reachable s →
  (∀ u e d,
     proposedDirection e = Some d →
     (opposite (directionRef s) d → handle u e s = Some s)
     ∧ (¬ opposite (directionRef s) d →
        ∃ s', handle u e s = Some s'
          ∧ nextDirectionRef s' = Some d
          ∧ directionRef s' = directionRef s))
  ∧ ¬ opposite (directionRef s) (activeDirection s)
  ∧ (∀ u (p p2 : Z) s1 s2,
       loopRef s = Some p → handle u TimerFire s = Some s1 →
       quiet s1 s2 → loopRef s2 = Some p2 →
       directionRef s1 = activeDirection s
       ∧ ¬ opposite (activeDirection s) (activeDirection s2)).
Proof.
  intros HI%reachable_Inv. split; [|split].
  - intros u e d Hprop.
    assert (∀ (b : bool) t,
      t = (if b then setIsRunning true (setNextDirectionRef (Some d) s)
           else setNextDirectionRef (Some d) s) →
      nextDirectionRef (render t) = Some d
      ∧ directionRef (render t) = directionRef s) as Hacc.
    { intros b t ->. rewrite render_eq.
      destruct b; simpl; by rewrite (inv_direction _ HI). }
    unfold handle. destruct e; try done; cbv beta iota delta [dispatch].
    + destruct (handleKeyDown_cases u key s)
        as [(Hk & _)|[(Hk & _)|[(_ & Hnone & _)|
            [(d' & _ & Hd' & Hopp & Heq)
            |(d' & _ & Hd' & _ & Hopp & Heq)]]]].
      * simpl in Hprop. by rewrite decide_True in Hprop.
      * simpl in Hprop. by rewrite decide_True in Hprop.
      * congruence.
      * assert (d' = d) as -> by congruence. rewrite Heq. simpl. split.
        -- intros _. by rewrite render_Inv.
        -- done.
      * assert (d' = d) as -> by congruence. rewrite Heq. simpl. split.
        -- done.
        -- intros _. eexists. split; [done|]. by eapply Hacc.
    + simpl in Hprop. simplify_eq.
      destruct (onClickPad_cases p s) as [[Hopp Heq]|[Hopp Heq]];
        rewrite Heq; simpl; split; try done.
      * intros _. by rewrite render_Inv.
      * intros _. eexists. split; [done|]. by eapply Hacc.
  - by apply active_not_opposite.
  - intros u p p2 s1 s2 Hp Hh Hq Hp2.
    pose proof (tick_directionRef _ _ _ _ HI Hp Hh) as Hd1.
    split; [done|].
    destruct (quiet_keeps_direction s1 s2) as [HI2 Hd2];
      [by eapply Inv_handle|done|].
    apply active_not_opposite; [done|]. by rewrite Hd2.
Qed.

Lemma reachable_run (es : list (JS.unit_interval * Event)) s s' :
  reachable s → run es s = Some s' → reachable s'.
Proof.
  revert s. induction es as [|[u e] es IH]; intros s Hs Hrun; simpl in Hrun.
  - by simplify_eq.
  - destruct (handle u e s) as [t|] eqn:Hh; [|done].
    eapply IH; [|exact Hrun]. by eapply reachable_handle.
Qed.

Lemma started_reachable : reachable started.
Proof.
  apply (reachable_handle (mount u0 None) u0 ClickStart);
    [apply reachable_mount|vm_compute; reflexivity].
Qed.

Lemma C4_no_instant_reversal_witness :
  reachable started
  ∧ (proposedDirection (KeyDown "A") = Some (mkCell (-1) 0)
     ∧ opposite (directionRef started) (mkCell (-1) 0)
     ∧ handle u0 (KeyDown "A") started = Some started)
  ∧ (loopRef started = Some 150
     ∧ handle u0 TimerFire started = Some afterTick
     ∧ handle u0 (KeyDown "w") afterTick = Some turningUp
     ∧ handle u0 (ClickPad PadDown) turningUp = Some turningDown
     ∧ quiet afterTick turningDown
     ∧ loopRef turningDown = Some 150
     ∧ activeDirection started = mkCell 1 0
     ∧ activeDirection turningDown = mkCell 0 1
     ∧ ¬ opposite (activeDirection started) (activeDirection turningDown)).
Proof.
  pose proof started_reachable as Hreach.
  assert (handle u0 TimerFire started = Some afterTick) as H1
    by (vm_compute; reflexivity).
  assert (handle u0 (KeyDown "w") afterTick = Some turningUp) as H2
    by (vm_compute; reflexivity).
  assert (handle u0 (ClickPad PadDown) turningUp = Some turningDown) as H3
    by (vm_compute; reflexivity).
  assert (quiet afterTick turningDown) as Hq.
  { apply (quiet_step afterTick u0 (KeyDown "w") turningUp turningDown);
      [reflexivity|reflexivity|exact H2|].
    apply (quiet_step turningUp u0 (ClickPad PadDown) turningDown turningDown);
      [reflexivity|reflexivity|exact H3|apply quiet_refl]. }
  destruct (C4_no_instant_reversal started Hreach) as (Hdrop & _ & Hnext).
  split; [exact Hreach|]. split.
  - split; [vm_compute; reflexivity|]. split; [vm_compute; split; reflexivity|].
    apply (Hdrop u0 (KeyDown "A") (mkCell (-1) 0));
      [vm_compute; reflexivity|vm_compute; split; reflexivity].
  - split; [reflexivity|]. split; [exact H1|]. split; [exact H2|].
    split; [exact H3|]. split; [exact Hq|]. split; [reflexivity|].
    split; [reflexivity|]. split; [reflexivity|].
    exact (proj2 (Hnext u0 150 150 afterTick turningDown
                    eq_refl H1 Hq eq_refl)).
Defined.

Lemma elapse_idle s (us : list JS.unit_interval) :
  Inv s → loopRef s = None → run (elapse us) s = Some s.
Proof.
  intros HI Hp. induction us as [|u us IH]; simpl; [done|].
  unfold handle. simpl. rewrite Hp. simpl. by rewrite render_Inv.
Qed.

Lemma render_setIsRunning s (b : bool) :
  Inv s →
  render (s |> setIsRunning b)
  = s |> setIsRunning b
      |> setLoopRef (if negb b || isGameOver s then None else Some (speed s)).
Proof.
  intros [_ Hdir _ _ _ Hstore]. rewrite render_eq.
  destruct s; simpl in *. by subst.
Qed.

(** C9.  In every reachable state: pausing clears the running flag and the
    interval and nothing else; while the running flag is clear (paused or not
    yet started) no interval is live, and however many times the timer comes
    due the whole state (snake, food, score, speed, direction and the rest)
    stays as it is; resuming (the space key, the Resume button, or the Start
    button before the first point) sets the running flag and arms an interval
    at the current speed and changes nothing else, so no tick is made up for;
    pausing a running game, waiting and resuming gives back the very state
    that was paused. *)
Theorem C9_pause_freezes_resume_continues s :
  reachable s →
  (isRunning s = true →
     ∀ u, handle u ClickPause s
          = Some (s |> setIsRunning false |> setLoopRef None))
  ∧ (isRunning s = false →
       loopRef s = None
       ∧ (∀ us, run (elapse us) s = Some s)
       ∧ (isGameOver s = false →
            ∀ u,
              let resumed :=
                s |> setIsRunning true |> setLoopRef (Some (speed s)) in
              handle u (KeyDown " ") s = Some resumed
              ∧ (showResume s = true → handle u ClickResume s = Some resumed)
              ∧ (showStart s = true → handle u ClickStart s = Some resumed)))
  ∧ (isRunning s = true → isGameOver s = false →
       ∀ u us u',
         run ((u, ClickPause) :: elapse us ++ [(u', KeyDown " ")]) s = Some s).
Proof.
  intros Hreach. pose proof (reachable_Inv _ Hreach) as HI.
  assert (isRunning s = true →
    ∀ u, handle u ClickPause s
         = Some (s |> setIsRunning false |> setLoopRef None)) as Hpause.
  { intros Hrun u. unfold handle. simpl. rewrite Hrun. simpl.
    unfold handlePause. by rewrite render_setIsRunning. }
  assert (isRunning s = false →
    loopRef s = None
    ∧ (∀ us, run (elapse us) s = Some s)
    ∧ (isGameOver s = false →
         ∀ u,
           let resumed :=
             s |> setIsRunning true |> setLoopRef (Some (speed s)) in
           handle u (KeyDown " ") s = Some resumed
           ∧ (showResume s = true → handle u ClickResume s = Some resumed)
           ∧ (showStart s = true → handle u ClickStart s = Some resumed)))
    as Hidle.
  { clear Hpause. intros Hrun.
    assert (loopRef s = None) as Hp.
    { rewrite (inv_timer _ HI). by rewrite Hrun. }
    split; [done|]. split; [intros us; by apply elapse_idle|].
    intros Hover u resumed. subst resumed. unfold handle. simpl.
    split; [|split].
    - unfold handleKeyDown. change (JS.toLowerCase " ") with " ". simpl.
      rewrite Hover, Hrun. simpl.
      rewrite render_setIsRunning by done. by rewrite Hover.
    - intros ->. unfold handleResume. rewrite Hover. simpl.
      rewrite render_setIsRunning by done. by rewrite Hover.
    - intros ->. unfold handleStart. rewrite Hover. simpl.
      rewrite render_setIsRunning by done. by rewrite Hover. }
  split; [done|]. split; [done|].
  intros Hrun Hover u us u'.
  assert (reachable (s |> setIsRunning false |> setLoopRef None)) as Hreach'.
  { eapply reachable_handle; [exact Hreach|by apply (Hpause Hrun u)]. }
  pose proof (reachable_Inv _ Hreach') as HI'.
  cbn [run]. rewrite (Hpause Hrun u). simpl.
  clear Hpause Hidle.
  assert (∀ t, Inv t → loopRef t = None →
    run (elapse us ++ [(u', KeyDown " ")]) t = handle u' (KeyDown " ") t)
    as Hrun_app.
  { intros t Ht Hp. induction us as [|u1 us IH]; simpl; [reflexivity|].
    unfold handle at 1. simpl. rewrite Hp. simpl. by rewrite render_Inv. }
  rewrite Hrun_app by done.
  unfold handle. simpl. unfold handleKeyDown.
  change (JS.toLowerCase " ") with " ". simpl. rewrite Hover. simpl.
  rewrite render_eq. simpl. rewrite Hover. simpl.
  destruct HI as [_ Hdir _ _ Htimer Hstore].
  rewrite Hrun, Hover in Htimer. simpl in Htimer.
  destruct s; simpl in *. by subst.
Qed.

Lemma C9_pause_resume_witness :
  reachable started
  ∧ isRunning started = true ∧ isGameOver started = false
  ∧ handle u0 ClickPause started = Some paused
  ∧ isRunning paused = false
  ∧ run (elapse [u0; u_half; u0]) paused = Some paused
  ∧ handle u0 (KeyDown " ") paused = Some started
  ∧ run ((u0, ClickPause) :: elapse [u0; u_half] ++ [(u0, KeyDown " ")])
      started = Some started.
Proof.
  pose proof started_reachable as Hreach.
  destruct (C9_pause_freezes_resume_continues started Hreach)
    as (Hpause & _ & Hcycle).
  assert (handle u0 ClickPause started = Some paused) as H1
    by exact (Hpause eq_refl u0).
  assert (reachable paused) as Hreach'
    by exact (reachable_handle _ _ _ _ Hreach H1).
  destruct (C9_pause_freezes_resume_continues paused Hreach')
    as (_ & Hidle & _).
  destruct (Hidle eq_refl) as (_ & Hfrozen & Hresume).
  split; [exact Hreach|]. split; [reflexivity|]. split; [reflexivity|].
  split; [exact H1|]. split; [reflexivity|].
  split; [exact (Hfrozen [u0; u_half; u0])|].
  split; [exact (proj1 (Hresume eq_refl u0))|].
  exact (Hcycle eq_refl eq_refl u0 [u0; u_half] u0).
Defined.

Lemma game_over_step s u e s' :
  Inv s → isGameOver s = true → invokesReset e s = false →
  handle u e s = Some s' →
  isGameOver s' = true ∧ loopRef s' = None
  ∧ snake s' = snake s ∧ food s' = food s ∧ score s' = score s
  ∧ speed s' = speed s.
Proof.
  intros HI Hover Hr Hh.
  assert (loopRef s = None) as Hp.
  { rewrite (inv_timer _ HI), Hover. by destruct (negb (isRunning s)). }
  destruct (firesTimer e) eqn:Ht.
  - destruct e; try done.
    unfold handle in Hh. simpl in Hh. rewrite Hp in Hh. simpl in Hh.
    rewrite (render_Inv _ HI) in Hh. by simplify_eq.
  - destruct (input_event_state s u e s') as (b & o & ->); [done..|].
    rewrite render_eq. simpl. rewrite Hover.
    by rewrite orb_true_r.
Qed.

(** C10.  In every reachable state with the game-over flag set: no interval
    is live and, however many times the timer comes due, nothing changes;
    every event either calls [resetGame] (the space key, the Restart button),
    which clears the flag, or leaves the flag set, the interval cleared and
    snake, food, score and speed as they are, and so does every sequence of
    events without a call of [resetGame]; an on-screen arrow that is not a
    reversal sets the running flag all the same, with no interval armed;
    a key never changes the running flag. *)
Theorem C10_game_over_only_left_by_restart s :
  reachable s → isGameOver s = true →
  loopRef s = None
  ∧ (∀ us, run (elapse us) s = Some s)
  ∧ (∀ u e s',
       handle u e s = Some s' →
       (invokesReset e s = true ∧ s' = render (resetGame u true s)
        ∧ isGameOver s' = false)
       ∨ (invokesReset e s = false
          ∧ isGameOver s' = true ∧ loopRef s' = None
          ∧ snake s' = snake s ∧ food s' = food s ∧ score s' = score s
          ∧ speed s' = speed s))
  ∧ (∀ es s',
       run es s = Some s' → noReset es s →
       isGameOver s' = true ∧ loopRef s' = None
       ∧ snake s' = snake s ∧ food s' = food s ∧ score s' = score s
       ∧ speed s' = speed s)
  ∧ (∀ u (p : Pad),
       ¬ opposite (directionRef s) (KEY_TO_DIRECTION !!! padKey p) →
       ∃ s', handle u (ClickPad p) s = Some s'
         ∧ isRunning s' = true ∧ isGameOver s' = true ∧ loopRef s' = None)
  ∧ (∀ u (key : string) s',
       invokesReset (KeyDown key) s = false →
       handle u (KeyDown key) s = Some s' → isRunning s' = isRunning s).
Proof.
  intros HI%reachable_Inv Hover.
  assert (loopRef s = None) as Hp.
  { rewrite (inv_timer _ HI), Hover. by destruct (negb (isRunning s)). }
  split; [done|]. split; [intros us; by apply elapse_idle|].
  split; [|split; [|split]].
  - intros u e s' Hh.
    destruct (invokesReset e s) eqn:Hr; [left|right; split; [done|]];
      [|by eapply game_over_step].
    split; [done|].
    assert (s' = render (resetGame u true s)) as ->;
      [|split; [done|by rewrite render_eq]].
    unfold handle in Hh. apply fmap_Some in Hh as (t & Hd & ->). f_equal.
    destruct e; simpl in Hr; try done;
      cbv beta iota delta [dispatch] in Hd; simplify_eq.
    + apply andb_prop in Hr as [Hk%bool_decide_eq_true _].
      unfold handleKeyDown. fold (normalizedKey key).
      by rewrite decide_True, Hover.
    + unfold showStart in Hr. rewrite Hover in Hr.
      by rewrite andb_false_r in Hr.
    + apply negb_true_iff in Hr. by rewrite Hr.
  - intros es. revert s HI Hover Hp.
    induction es as [|[u e] es IH]; intros s HI Hover Hp s' Hrun Hnr;
      simpl in Hrun; [by simplify_eq|].
    destruct Hnr as [Hr Hnr].
    destruct (handle u e s) as [t|] eqn:Hh; [|done]. simpl in Hrun.
    destruct (game_over_step _ _ _ _ HI Hover Hr Hh)
      as (Hover' & Hp' & <- & <- & <- & <-).
    eapply IH; [by eapply Inv_handle|done..].
  - intros u p Hopp. unfold handle. simpl.
    destruct (onClickPad_cases p s) as [[Hopp' _]|[_ ->]]; [done|].
    eexists. split; [done|]. rewrite render_eq.
    destruct (negb (isRunning s)) eqn:Hrun; simpl; rewrite Hover;
      rewrite ?orb_true_r; [done|].
    by apply negb_false_iff in Hrun.
  - intros u key s' Hr Hh. unfold handle in Hh. simpl in Hh. simplify_eq.
    rewrite render_eq. simpl. simpl in Hr.
    destruct (handleKeyDown_cases u key s)
      as [(Hk & _)|[(_ & Hover' & _)|[(_ & _ & ->)|
          [(d & _ & _ & _ & ->)|(d & _ & _ & _ & _ & ->)]]]];
      try done.
    + by rewrite Hover, bool_decide_eq_true_2 in Hr.
    + congruence.
    + rewrite Hover. by rewrite andb_false_r.
Qed.

Lemma crashed_reachable : reachable crashed.
Proof.
  apply (reachable_run (replicate 12 (u0, TimerFire)) started);
    [apply started_reachable|vm_compute; reflexivity].
Qed.

Lemma C10_game_over_witness :
  reachable crashed ∧ isGameOver crashed = true
  ∧ run (elapse [u0; u_half; u0]) crashed = Some crashed
  ∧ (¬ opposite (directionRef crashed) (KEY_TO_DIRECTION !!! padKey PadUp)
     ∧ ∃ s', handle u0 (ClickPad PadUp) crashed = Some s'
         ∧ isRunning s' = true ∧ isGameOver s' = true ∧ loopRef s' = None)
  ∧ (run [(u0, ClickPad PadUp); (u0, TimerFire); (u0, KeyDown "s");
          (u0, ClickPause)] crashed
     = Some (crashed |> setNextDirectionRef (Some (mkCell 0 1)))
     ∧ noReset [(u0, ClickPad PadUp); (u0, TimerFire); (u0, KeyDown "s");
                (u0, ClickPause)] crashed)
  ∧ invokesReset (KeyDown " ") crashed = true
  ∧ handle u_half (KeyDown " ") crashed
    = Some (render (resetGame u_half true crashed)).
Proof.
  pose proof crashed_reachable as Hreach.
  destruct (C10_game_over_only_left_by_restart crashed Hreach eq_refl)
    as (_ & Hfrozen & _ & _ & Hpad & _).
  assert (¬ opposite (directionRef crashed)
            (KEY_TO_DIRECTION !!! padKey PadUp)) as Hup.
  { vm_compute. intros [H _]. discriminate H. }
  split; [exact Hreach|]. split; [reflexivity|].
  split; [exact (Hfrozen [u0; u_half; u0])|].
  split; [split; [exact Hup|exact (Hpad u0 PadUp Hup)]|].
  split.
  - split; [vm_compute; reflexivity|]. vm_compute. repeat split.
  - split; [vm_compute; reflexivity|]. vm_compute. reflexivity.
Defined.

Lemma wellFormedNumeral_loads_nonneg u (str : string) :
  wellFormedNumeral str = true → 0 ≤ highScore (mount u (Some str)).
Proof.
  intros Hwf. pose proof (wellFormedNumeral_prefix _ Hwf) as Hnum.
  rewrite mount_highScore, (parseInt_numericPrefix _ _ _ Hnum).
  assert (0 ≤ decimalValue 0 str).
  { apply decimalValue_nonneg; [done|]. by apply andb_prop in Hwf as [_ ?]. }
  destruct (decide (str = "")); simpl; lia.
Qed.

(** C6, as stated, fails: the stored string "12abc" is not a well-formed
    numeral, and the high score loaded from it is 12, not 0. *)
Lemma C6_malformed_string_counterexample :
  wellFormedNumeral "12abc" = false
  ∧ highScore (mount u0 (Some "12abc")) = 12
  ∧ highScore (mount u0 (Some "12abc")) ≠ 0.
Proof. split; [reflexivity|]. split; [vm_compute; reflexivity|]. by vm_compute. Qed.

(** C6, amended.  The high score loaded at initialization is 0 for a missing
    value, for the empty string, and for every stored string that has no
    numeric prefix, that is, that does not consist of white space, an
    optional sign and at least one digit, followed by anything.  A string
    with a numeric prefix loads the number its digits denote, negated after
    a minus sign; a well-formed numeral loads its value, which is not
    negative. *)
Theorem C6_load_high_score u :
  highScore (mount u None) = 0
  ∧ highScore (mount u (Some "")) = 0
  ∧ (∀ str,
       (∀ sg ds, ¬ numericPrefix str sg ds) →
       highScore (mount u (Some str)) = 0)
  ∧ (∀ str sg ds,
       numericPrefix str sg ds →
       decimalValue 0 ds ≤ JS.MAX_SAFE_INTEGER →
       highScore (mount u (Some str)) = signFactor sg * decimalValue 0 ds)
  ∧ (∀ str,
       wellFormedNumeral str = true →
       0 ≤ highScore (mount u (Some str))
       ∧ (decimalValue 0 str ≤ JS.MAX_SAFE_INTEGER →
          highScore (mount u (Some str)) = decimalValue 0 str)).
Proof.
  assert (∀ str sg ds,
    numericPrefix str sg ds →
    highScore (mount u (Some str)) = signFactor sg * decimalValue 0 ds)
    as Hprefix.
  { intros str sg ds Hnum. rewrite mount_highScore.
    rewrite (parseInt_numericPrefix _ _ _ Hnum). simpl.
    destruct (decide (str = "")) as [->|]; [|done].
    destruct Hnum as (ws & rest & Heq & _ & Hne & _).
    destruct ws, sg, ds; simpl in Heq; done. }
  split; [by rewrite mount_highScore|].
  split; [by rewrite mount_highScore|].
  split; [|split; [by intros str sg ds Hnum _; apply Hprefix|]].
  - intros str Hnone. rewrite mount_highScore.
    destruct (decide (str = "")) as [_|_]; [done|].
    destruct (JS.parseInt str) as [m|] eqn:Hp; [|done].
    apply parseInt_Some in Hp as (sg & ds & Hnum). by destruct (Hnone sg ds).
  - intros str Hwf. pose proof (wellFormedNumeral_prefix _ Hwf) as Hnum.
    rewrite (Hprefix _ _ _ Hnum). simpl signFactor.
    rewrite Z.mul_1_l. split; [|done].
    apply decimalValue_nonneg; [done|].
    by apply andb_prop in Hwf as [_ Hds].
Qed.

Lemma C6_load_high_score_witness :
  (∀ sg ds, ¬ numericPrefix "abc" sg ds)
  ∧ highScore (mount u0 (Some "abc")) = 0
  ∧ numericPrefix "  -12abc" MinusSign "12"
  ∧ highScore (mount u0 (Some "  -12abc")) = -12
  ∧ wellFormedNumeral "140" = true
  ∧ highScore (mount u0 (Some "140")) = 140.
Proof.
  destruct (C6_load_high_score u0) as (_ & _ & Hnone & Hprefix & Hwf).
  assert (∀ sg ds, ¬ numericPrefix "abc" sg ds) as Habc.
  { intros sg ds (ws & rest & Heq & Hws & Hne & Hds & _).
    destruct ws as [|c ws].
    - destruct sg, ds as [|c ds]; simpl in Heq; try done.
      injection Heq as <- _. simpl in Hds. discriminate Hds.
    - simpl in Heq. injection Heq as <- _. simpl in Hws. discriminate Hws. }
  assert (numericPrefix "  -12abc" MinusSign "12") as Hnum.
  { exists "  ", "abc". repeat split. discriminate. }
  split; [exact Habc|]. split; [exact (Hnone "abc" Habc)|].
  split; [exact Hnum|].
  split; [apply (Hprefix _ _ _ Hnum); vm_compute; discriminate|].
  split; [reflexivity|].
  apply (proj2 (Hwf "140" eq_refl)). vm_compute. discriminate.
Defined.

Lemma step_highScore u d s s' :
  step u d s = Some s' → highScore s ≤ highScore s'.
Proof.
  unfold step. destruct (JS.index (snake s) 0); simpl; [|done].
  intros Hstep. repeat case_match; simplify_eq; simpl; try done.
  all: destruct (Z.gtb_spec (score s + 10) (highScore s)); simplify_eq; lia.
Qed.

Lemma handle_highScore s u e s' :
  handle u e s = Some s' → highScore s ≤ highScore s'.
Proof.
  intros Hh. destruct (firesTimer e) eqn:Ht.
  - destruct e; try done. unfold handle in Hh.
    apply fmap_Some in Hh as (t & Hd & ->). rewrite render_eq. simpl.
    simpl in Hd. destruct (loopRef s); [|by simplify_eq].
    unfold intervalCallback in Hd. apply step_highScore in Hd.
    by destruct (nextDirectionRef s).
  - destruct (invokesReset e s) eqn:Hr.
    + unfold handle in Hh. apply fmap_Some in Hh as (t & Hd & ->).
      rewrite render_eq. simpl.
      destruct e; simpl in Hr; try done;
        cbv beta iota delta [dispatch] in Hd; simplify_eq.
      * destruct (handleKeyDown_cases u key s)
          as [(_ & _ & ->)|[(_ & _ & ->)|[(_ & _ & ->)|
              [(d & _ & _ & _ & ->)|(d & _ & _ & _ & _ & ->)]]]];
          try done.
        by destruct (negb _ && negb _).
      * unfold handleStart. by destruct (showStart s), (isGameOver s).
      * unfold handleRestart. by destruct (restartDisabled s).
    + destruct (input_event_state _ _ _ _ Ht Hr Hh) as (b & o & ->).
      by rewrite render_eq.
Qed.

Lemma run_highScore (es : list (JS.unit_interval * Event)) s s' :
  run es s = Some s' → highScore s ≤ highScore s'.
Proof.
  revert s. induction es as [|[u e] es IH]; intros s Hrun; simpl in Hrun.
  - by simplify_eq.
  - destruct (handle u e s) as [t|] eqn:Hh; [|done]. simpl in Hrun.
    apply handle_highScore in Hh. apply IH in Hrun. lia.
Qed.

(** C7, as stated, fails: with "-5" stored, the read at initialization takes
    the high score from the 0 of the first render down to -5. *)
Lemma C7_negative_high_score_counterexample :
  highScore (initialState u0 (Some "-5")) = 0
  ∧ highScore (mount u0 (Some "-5")) = -5
  ∧ ¬ (highScore (initialState u0 (Some "-5"))
       ≤ highScore (mount u0 (Some "-5")))
  ∧ ¬ (0 ≤ highScore (mount u0 (Some "-5"))).
Proof.
  split; [reflexivity|]. split; [vm_compute; reflexivity|].
  split; vm_compute; intros H; by apply H.
Qed.

(** C7, amended.  No event ever lowers the high score: not a tick (with or
    without food), not a key, not pause, resume or restart, and so no
    sequence of events; restart keeps it.  The read at initialization sets it
    to the number read from the stored string.  When that number is not
    negative, the read does not lower the high score and the high score is
    non-negative in every state reached afterwards; it is not negative
    unless the stored string has a numeric prefix with a minus sign, in
    particular not for a missing value nor for a well-formed numeral. *)
Theorem C7_high_score_never_decreases :
  (∀ s u e s', handle u e s = Some s' → highScore s ≤ highScore s')
  ∧ (∀ es s s', run es s = Some s' → highScore s ≤ highScore s')
  ∧ (∀ u (autoStart : bool) s,
       highScore (render (resetGame u autoStart s)) = highScore s)
  ∧ (∀ u stored,
       0 ≤ highScore (mount u stored) →
       highScore (initialState u stored) ≤ highScore (mount u stored)
       ∧ ∀ es s, run es (mount u stored) = Some s → 0 ≤ highScore s)
  ∧ (∀ u stored,
       (∀ str ds, stored = Some str → ¬ numericPrefix str MinusSign ds) →
       0 ≤ highScore (mount u stored))
  ∧ (∀ u, 0 ≤ highScore (mount u None))
  ∧ (∀ u str,
       wellFormedNumeral str = true → 0 ≤ highScore (mount u (Some str))).
Proof.
  split; [apply handle_highScore|].
  split; [intros es s s'; apply run_highScore|].
  split; [intros u b s; by rewrite render_eq|].
  split; [|split; [|split]].
  - intros u stored Hpos. split; [done|].
    intros es s Hrun%run_highScore. lia.
  - intros u stored Hnominus. rewrite mount_highScore.
    destruct stored as [str|]; [|done].
    destruct (decide (str = "")) as [_|_]; [done|].
    destruct (JS.parseInt str) as [m|] eqn:Hp; [|done]. simpl.
    destruct (parseInt_Some _ _ Hp) as (sg & ds & Hnum).
    rewrite (parseInt_numericPrefix _ _ _ Hnum) in Hp. simplify_eq.
    assert (0 ≤ decimalValue 0 ds) as Hds.
    { destruct Hnum as (_ & _ & _ & _ & _ & Hds & _).
      by apply decimalValue_nonneg. }
    destruct sg; simpl; try lia.
    by destruct (Hnominus str ds).
  - intros u. by rewrite mount_highScore.
  - intros u str Hwf. by apply wellFormedNumeral_loads_nonneg.
Qed.

Lemma C7_high_score_witness :
  handle u_half TimerFire aboutToEat = Some fed
  ∧ highScore aboutToEat ≤ highScore fed
  ∧ 0 ≤ highScore (mount u0 (Some "140"))
  ∧ highScore (initialState u0 (Some "140"))
    ≤ highScore (mount u0 (Some "140"))
  ∧ run [(u0, ClickStart); (u0, TimerFire); (u0, ClickRestart)]
      (mount u0 (Some "140"))
    = Some (started |> setHighScore 140 |> setLocalStorage (Some "140"))
  ∧ 0 ≤ highScore (started |> setHighScore 140
                           |> setLocalStorage (Some "140"))
  ∧ (∀ str ds, Some "+7" = Some str → ¬ numericPrefix str MinusSign ds)
  ∧ 0 ≤ highScore (mount u0 (Some "+7")).
Proof.
  destruct C7_high_score_never_decreases
    as (Hevent & _ & _ & Hinit & Hsign & _).
  assert (handle u_half TimerFire aboutToEat = Some fed) as Hfed
    by (vm_compute; reflexivity).
  assert (0 ≤ highScore (mount u0 (Some "140"))) as Hpos
    by (vm_compute; discriminate).
  assert (run [(u0, ClickStart); (u0, TimerFire); (u0, ClickRestart)]
            (mount u0 (Some "140"))
          = Some (started |> setHighScore 140
                          |> setLocalStorage (Some "140"))) as Hrun
    by (vm_compute; reflexivity).
  assert (∀ str ds, Some "+7" = Some str → ¬ numericPrefix str MinusSign ds)
    as Hplus.
  { intros str ds [= <-] (ws & rest & Heq & Hws & _).
    destruct ws as [|c ws]; simpl in Heq; [discriminate Heq|].
    injection Heq as <- _. simpl in Hws. discriminate Hws. }
  split; [exact Hfed|]. split; [exact (Hevent _ _ _ _ Hfed)|].
  split; [exact Hpos|]. destruct (Hinit u0 (Some "140") Hpos) as [Hle Hall].
  split; [exact Hle|]. split; [exact Hrun|].
  split; [exact (Hall _ _ Hrun)|].
  split; [exact Hplus|exact (Hsign u0 (Some "+7") Hplus)].
Defined.

End claims.

(** * Further properties of the game *)

Section progress.
Implicit Types (s : State) (u : JS.unit_interval) (e : Event) (d c : Cell).

(** The events that call [resetGame] end in the restarted state. *)
Lemma reset_event_state s u e s' :
  invokesReset e s = true → handle u e s = Some s' →
  s' = render (resetGame u true s).
Proof.
  intros Hr Hh. unfold handle in Hh.
  apply fmap_Some in Hh as (t & Hd & ->). f_equal.
  destruct e; simpl in Hr; try done;
    cbv beta iota delta [dispatch] in Hd; simplify_eq.
  - apply andb_prop in Hr as [Hk%bool_decide_eq_true Hover].
    unfold handleKeyDown. fold (normalizedKey key).
    by rewrite decide_True, Hover.
  - apply andb_prop in Hr as [Hshow Hover]. rewrite Hshow.
    unfold handleStart. by rewrite Hover.
  - apply negb_true_iff in Hr. by rewrite Hr.
Qed.

Lemma chain_removelast (body : list Cell) :
  chain body → chain (removelast body).
Proof.
  induction body as [|c [|d rest] IH]; [done..|].
  intros [Hcd Hrest]. specialize (IH Hrest).
  change (removelast (c :: d :: rest)) with (c :: removelast (d :: rest)).
  destruct rest as [|e rest]; [done|].
  change (removelast (d :: e :: rest)) with (d :: removelast (e :: rest))
    in *.
  by split.
Qed.

Lemma length_removelast_cons (c : Cell) (body : list Cell) :
  length (removelast (c :: body)) = length body.
Proof.
  revert c. induction body as [|d body IH]; intros c; [done|].
  change (removelast (c :: d :: body)) with (c :: removelast (d :: body)).
  cbn [length]. f_equal. apply IH.
Qed.

Lemma elem_of_removelast (c : Cell) (body : list Cell) :
  c ∈ removelast body → c ∈ body.
Proof.
  destruct (decide (body = [])) as [->|Hne]; [done|].
  rewrite (app_removelast_last (mkCell 0 0) Hne) at 2.
  intros Hin. apply elem_of_app. by left.
Qed.

Lemma adjacent_advance hd d : isUnit d → adjacent (advance hd d) hd.
Proof.
  unfold adjacent, advance. simpl. destruct d as [dx dy]. simpl.
  by replace (x hd + dx - x hd) with dx by lia;
     replace (y hd + dy - y hd) with dy by lia.
Qed.

Lemma Progress_render s : Progress s → Progress (render s).
Proof. intros [????]. rewrite render_eq. by split. Qed.

Lemma Progress_fresh u s :
  snake s = createInitialSnake → score s = 0 → speed s = INITIAL_SPEED →
  food s = getRandomFood u createInitialSnake → Progress s.
Proof.
  intros Hsn Hsc Hsp Hfd. split; rewrite ?Hsn, ?Hsc, ?Hsp, ?Hfd.
  - vm_compute. reflexivity.
  - vm_compute. reflexivity.
  - destruct (initial_food_free u) as [Hin Hfree]. split; [exact Hin|].
    intros Hon. destruct (Hfree Hon).
  - vm_compute. repeat split; set_solver.
Qed.

Lemma Progress_reset u (autoStart : bool) s :
  Progress (render (resetGame u autoStart s)).
Proof. apply Progress_render. by apply (Progress_fresh u). Qed.

Lemma Progress_step u d s s' :
  Board (snake s) (speed s) → isUnit d →
  step u d s = Some s' → Progress s → Progress s'.
Proof.
  intros (Hne & Hnd & Hin & Hsp) Hd Hstep [Hscore Hspeed [Hfin Hfood] Hchain].
  destruct (snake s) as [|hd tl] eqn:Hs; [done|].
  rewrite (step_cons _ _ _ _ _ Hs) in Hstep. rewrite <-Hs in *.
  destruct (_ || existsb _ _) eqn:Hhit.
  { simplify_eq. by split. }
  apply orb_false_iff in Hhit as [Hwall%hitsWall_false Hself].
  apply not_true_iff_false in Hself. rewrite hitsSelf_true in Hself.
  assert (chain (advance hd d :: snake s)) as Hchain'.
  { rewrite Hs. split; [by apply adjacent_advance|by rewrite <-Hs]. }
  destruct (cellsEqual _ _) eqn:Heq; simplify_eq.
  - split; simpl; rewrite ?length_cons.
    + lia.
    + unfold JS.Math_max, SPEED_FLOOR, SPEED_STEP, INITIAL_SPEED in *. lia.
    + set (body := advance hd d :: snake s).
      destruct (decide (spaces body = [])) as [Hnil|Hsp'].
      * rewrite (getRandomFood_full _ _ Hnil). split.
        -- unfold inBounds, GRID_SIZE. simpl. lia.
        -- intros _. exact (proj1 (spaces_nil_iff _) Hnil).
      * apply (getRandomFood_free u) in Hsp'.
        apply elem_of_spaces in Hsp' as [? ?]. by split.
    + done.
  - apply not_true_iff_false in Heq. rewrite cellsEqual_true in Heq.
    split; cbn [snake score speed food setSnake];
      rewrite ?length_removelast_cons.
    + done.
    + done.
    + split; [done|]. intros Hin'%elem_of_removelast.
      apply elem_of_cons in Hin' as [Hhead|Hbody]; [by destruct Heq|].
      destruct Hself. by apply (Hfood Hbody).
    + by apply chain_removelast.
Qed.

Lemma Progress_handle s u e s' :
  Inv s → Progress s → handle u e s = Some s' → Progress s'.
Proof.
  intros HI HP Hh. destruct (firesTimer e) eqn:Ht.
  - destruct e; try done. unfold handle in Hh.
    apply fmap_Some in Hh as (t & Hd & ->). apply Progress_render.
    simpl in Hd. destruct (loopRef s); [|by simplify_eq].
    change (intervalCallback u s)
      with (step u (activeDirection s) (consume s)) in Hd.
    destruct (consume_state s) as (Hsn & Hfd & Hsc & Hsp & _).
    eapply (Progress_step u (activeDirection s) (consume s)); [..|done|].
    + rewrite Hsn, Hsp. apply (inv_board _ HI).
    + unfold activeDirection.
      destruct (nextDirectionRef s) as [d|] eqn:Hn; simpl.
      * by apply (inv_pending _ HI).
      * rewrite (inv_direction _ HI). apply (inv_unit _ HI).
    + destruct HP as [????]. split; by rewrite ?Hsn, ?Hfd, ?Hsc, ?Hsp.
  - destruct (invokesReset e s) eqn:Hr.
    + rewrite (reset_event_state _ _ _ _ Hr Hh). apply Progress_reset.
    + destruct (input_event_state _ _ _ _ Ht Hr Hh) as (b & o & ->).
      apply Progress_render. by destruct HP as [????].
Qed.

Lemma reachable_Progress s : reachable s → Progress s.
Proof.
  induction 1 as [u stored|s u e s' Hreach IH Hh].
  - unfold mount. apply Progress_render. apply (Progress_fresh u);
      unfold loadEffect; simpl; by repeat case_match.
  - eapply Progress_handle; [by apply reachable_Inv|done..].
Qed.

End progress.

Section counting.
Implicit Types (occupied : list Cell) (c : Cell).

Lemma NoDup_rowMajor : NoDup rowMajor.
Proof. apply (bool_decide_unpack _). vm_compute. reflexivity. Qed.

Lemma length_rowMajor : length rowMajor = 625%nat.
Proof. vm_compute. reflexivity. Qed.

(** The free cells and the occupied cells share out the grid. *)
Lemma length_spaces occupied :
  NoDup occupied → Forall inBounds occupied →
  (length (spaces occupied) + length occupied = 625)%nat.
Proof.
  intros Hnd Hin. rewrite spaces_freeCells. unfold freeCells.
  pose proof (filter_app_complement (λ c, c ∉ occupied) rowMajor) as Hperm.
  apply Permutation_length in Hperm.
  rewrite length_app, length_rowMajor in Hperm.
  assert (filter (λ c, ¬ (c ∉ occupied)) rowMajor ≡ₚ occupied) as Hocc.
  { apply NoDup_Permutation; [by apply NoDup_filter, NoDup_rowMajor|done|].
    intros c. rewrite list_elem_of_filter, elem_of_rowMajor. split.
    - intros [Hc _]. by apply dec_stable.
    - intros Hc. split; [tauto|]. by eapply Forall_forall in Hin. }
  apply Permutation_length in Hocc. lia.
Qed.

Lemma length_body_le occupied :
  NoDup occupied → Forall inBounds occupied → (length occupied ≤ 625)%nat.
Proof. intros Hnd Hin. pose proof (length_spaces _ Hnd Hin). lia. Qed.

Lemma boardFull_length occupied :
  NoDup occupied → Forall inBounds occupied →
  boardFull occupied ↔ length occupied = 625%nat.
Proof.
  intros Hnd Hin. pose proof (length_spaces _ Hnd Hin) as Hlen.
  unfold boardFull. rewrite <-spaces_nil_iff. split.
  - intros Hnil. rewrite Hnil in Hlen. simpl in Hlen. lia.
  - intros Hfull. destruct (spaces occupied); [done|]. simpl in Hlen. lia.
Qed.

End counting.

Section drawing.






End drawing.

Section extras.
Implicit Types (s : State) (u : JS.unit_interval) (e : Event) (d c : Cell).

Lemma run_total (es : list (JS.unit_interval * Event)) s :
  reachable s → ∃ s', run es s = Some s' ∧ reachable s'.
Proof.
  revert s. induction es as [|[u e] es IH]; intros s Hs; simpl.
  - by exists s.
  - destruct (handle_total s u e (reachable_Inv _ Hs)) as [t Ht].
    rewrite Ht. simpl. apply IH. by eapply reachable_handle.
Qed.

Lemma reachable_length s :
  reachable s → (3 ≤ length (snake s) ≤ 625)%nat.
Proof.
  intros Hs. destruct (inv_board _ (reachable_Inv _ Hs))
    as (_ & Hnd & Hin & Hsp).
  pose proof (prog_speed _ (reachable_Progress _ Hs)) as Hspeed.
  pose proof (length_body_le _ Hnd Hin).
  unfold SPEED_FLOOR, INITIAL_SPEED, SPEED_STEP in *. lia.
Qed.

Lemma reachable_score_nonneg s : reachable s → 0 ≤ score s.
Proof.
  intros Hs. pose proof (prog_score _ (reachable_Progress _ Hs)).
  pose proof (reachable_length _ Hs). lia.
Qed.



(** X2.  In every reachable state the score is ten times the number of cells
    the snake has grown by, so it lies between 0 and 6220, and the speed is
    a function of the score: 150 less 4 per food eaten, but not below 60. *)
Theorem X2_score_and_speed_follow_length s :
  reachable s →
  score s = 10 * (Z.of_nat (length (snake s)) - 3)
  ∧ 0 ≤ score s ≤ 6220
  ∧ speed s = Z.max 60 (150 - 4 * (score s `div` 10))
  ∧ 60 ≤ speed s ≤ 150.
Proof.
  intros Hs. pose proof (reachable_Progress _ Hs) as [Hscore Hspeed _ _].
  pose proof (reachable_length _ Hs) as Hlen.
  destruct (inv_board _ (reachable_Inv _ Hs)) as (_ & _ & _ & Hsp).
  unfold SPEED_FLOOR, INITIAL_SPEED, SPEED_STEP in *.
  split; [done|]. split; [lia|]. split; [|done].
  rewrite Hspeed, Hscore.
  by rewrite (Z.mul_comm 10), Z.div_mul.
Qed.

Lemma X2_score_and_speed_witness :
  reachable crashed
  ∧ score crashed = 10 * (Z.of_nat (length (snake crashed)) - 3)
  ∧ speed crashed = Z.max 60 (150 - 4 * (score crashed `div` 10)).
Proof.
  pose proof crashed_reachable as Hs.
  destruct (X2_score_and_speed_follow_length crashed Hs)
    as (Hscore & _ & Hspeed & _).
  split; [exact Hs|]. split; [exact Hscore|exact Hspeed].
Defined.

(** X3.  No sequence of events raises: from a reachable state every event is
    handled, in particular [step] never reads the head of an empty snake. *)
Theorem X3_events_never_raise s (es : list (JS.unit_interval * Event)) :
  reachable s → ∃ s', run es s = Some s'.
Proof.
  intros Hs. destruct (run_total es s Hs) as (s' & Hrun & _). by exists s'.
Qed.

Lemma X3_events_never_raise_witness :
  reachable started
  ∧ ∃ s', run (replicate 12 (u0, TimerFire) ++ [(u0, ClickPad PadUp)])
            started = Some s'.
Proof.
  split; [exact started_reachable|].
  exact (X3_events_never_raise started _ started_reachable).
Defined.

(** X4.  On a tick of a live interval whose candidate next head is inside
    the grid, is not a cell of the body and is not the food cell, the snake
    moves: the new head is put in front and the last cell is dropped, so the
    length is unchanged; food, score, speed, high score and the two flags
    are unchanged; the pending direction, if any, has become the direction
    and the buffer is empty. *)
Theorem X4_plain_move u s (p : Z) hd tl :
  loopRef s = Some p →
  snake s = hd :: tl →
  inBounds (advance hd (activeDirection s)) →
  advance hd (activeDirection s) ∉ snake s →
  advance hd (activeDirection s) ≠ food s →
  ∃ s', handle u TimerFire s = Some s'
    ∧ snake s' = advance hd (activeDirection s) :: removelast (snake s)
    ∧ length (snake s') = length (snake s)
    ∧ food s' = food s ∧ score s' = score s ∧ speed s' = speed s
    ∧ highScore s' = highScore s
    ∧ isRunning s' = isRunning s ∧ isGameOver s' = isGameOver s
    ∧ direction s' = default (direction s) (nextDirectionRef s)
    ∧ nextDirectionRef s' = None.
Proof.
  intros Hp Hs Hin Hself Hfood. rewrite (tick_eq _ _ _ Hp).
  destruct (consume_state s)
    as (Hsn & Hfd & Hsc & Hsp & Hhs & Hrun & Hover & Hdir & _ & Hnext).
  rewrite (step_free u _ (consume s) hd tl); [|by rewrite ?Hsn..].
  rewrite Hfd.
  assert (cellsEqual (advance hd (activeDirection s)) (food s) = false)
    as ->.
  { apply not_true_iff_false. by rewrite cellsEqual_true. }
  simpl. eexists. split; [done|]. rewrite render_eq. simpl.
  rewrite Hsn, Hfd, Hsc, Hsp, Hhs, Hrun, Hover, Hdir, Hnext, Hs.
  split_and!; try done.
  cbn [length]. by rewrite length_removelast_cons.
Qed.

Lemma X4_plain_move_witness :
  loopRef started = Some 150
  ∧ snake started = mkCell 13 12 :: [mkCell 12 12; mkCell 11 12]
  ∧ inBounds (advance (mkCell 13 12) (activeDirection started))
  ∧ (advance (mkCell 13 12) (activeDirection started) ∉ snake started)
  ∧ advance (mkCell 13 12) (activeDirection started) ≠ food started
  ∧ ∃ s', handle u0 TimerFire started = Some s'
      ∧ snake s' = [mkCell 14 12; mkCell 13 12; mkCell 12 12]
      ∧ score s' = 0 ∧ speed s' = 150.
Proof.
  assert (inBounds (advance (mkCell 13 12) (activeDirection started)))
    as Hin by (vm_compute; repeat split; discriminate).
  assert (advance (mkCell 13 12) (activeDirection started) ∉ snake started)
    as Hfree by (apply (bool_decide_unpack _); vm_compute; reflexivity).
  assert (advance (mkCell 13 12) (activeDirection started) ≠ food started)
    as Hfood by (vm_compute; discriminate).
  split; [reflexivity|]. split; [reflexivity|]. split; [exact Hin|].
  split; [exact Hfree|]. split; [exact Hfood|].
  destruct (X4_plain_move u0 started 150 (mkCell 13 12)
              [mkCell 12 12; mkCell 11 12] eq_refl eq_refl Hin Hfree Hfood)
    as (s' & Hh & Hsnake & _ & _ & Hscore & Hspeed & _).
  exists s'. split; [exact Hh|]. split; [exact Hsnake|].
  split; [exact Hscore|exact Hspeed].
Defined.

(** X5.  In every reachable state the food is inside the grid, and it is not
    under the snake unless the snake covers the whole grid, that is, has 625
    cells. *)
Theorem X5_food_is_on_the_grid_and_off_the_snake s :
  reachable s →
  inBounds (food s)
  ∧ (food s ∉ snake s
     ∨ (boardFull (snake s) ∧ length (snake s) = 625%nat)).
Proof.
  intros Hs. destruct (prog_food _ (reachable_Progress _ Hs)) as [Hin Hon].
  destruct (inv_board _ (reachable_Inv _ Hs)) as (_ & Hnd & Hbody & _).
  split; [done|].
  destruct (decide (food s ∈ snake s)) as [Hfood|Hfood]; [right|by left].
  split; [by apply Hon|]. by apply boardFull_length, Hon.
Qed.

Lemma X5_food_witness :
  reachable crashed ∧ inBounds (food crashed)
  ∧ (food crashed ∉ snake crashed).
Proof.
  pose proof crashed_reachable as Hs.
  destruct (X5_food_is_on_the_grid_and_off_the_snake crashed Hs)
    as [Hin Hoff].
  split; [exact Hs|]. split; [exact Hin|].
  destruct Hoff as [Hoff|[_ Hlen]]; [exact Hoff|].
  vm_compute in Hlen. discriminate Hlen.
Defined.

(** X6.  For a list of pairwise distinct in-bounds cells, [getRandomFood]
    chooses among exactly 625 minus its length candidates; the fallback cell
    (0,0) is used exactly when the list has 625 cells. *)
Theorem X6_number_of_free_cells (occupied : list Cell) :
  NoDup occupied → Forall inBounds occupied →
  (length (spaces occupied) + length occupied = 625)%nat
  ∧ (spaces occupied = [] ↔ length occupied = 625%nat).
Proof.
  intros Hnd Hin. split; [by apply length_spaces|].
  rewrite spaces_nil_iff. by apply boardFull_length.
Qed.

Lemma X6_number_of_free_cells_witness :
  NoDup createInitialSnake ∧ Forall inBounds createInitialSnake
  ∧ (length (spaces createInitialSnake) + length createInitialSnake
     = 625)%nat.
Proof.
  destruct Board_initial as (_ & Hnd & Hin & _).
  split; [exact Hnd|]. split; [exact Hin|].
  exact (proj1 (X6_number_of_free_cells createInitialSnake Hnd Hin)).
Defined.

Lemma grown_reachable : reachable grown.
Proof.
  apply (reachable_run
           (replicate 9 (u0, TimerFire)
            ++ [(u0, KeyDown "w")] ++ replicate 12 (u0, TimerFire)
            ++ [(u0, KeyDown "a")] ++ replicate 22 (u0, TimerFire))
           started);
    [apply started_reachable|vm_compute; reflexivity].
Qed.

(** X7.  In every reachable state an interval is live exactly when the game
    is running and not over, and its period is the current speed. *)
Theorem X7_interval_follows_state s :
  reachable s →
  loopRef s
  = (if isRunning s && negb (isGameOver s) then Some (speed s) else None)
  ∧ (is_Some (loopRef s) ↔ isRunning s = true ∧ isGameOver s = false).
Proof.
  intros Hs. rewrite (inv_timer _ (reachable_Inv _ Hs)).
  destruct (isRunning s), (isGameOver s); simpl; split; try done.
  all: split; [by intros [? ?]|by intros [? ?]].
Qed.

Lemma X7_interval_witness :
  reachable grown
  ∧ loopRef grown = Some (speed grown)
  ∧ reachable crashed ∧ loopRef crashed = None.
Proof.
  pose proof grown_reachable as Hfed.
  split; [exact Hfed|].
  split; [exact (proj1 (X7_interval_follows_state _ Hfed))|].
  split; [exact crashed_reachable|].
  exact (proj1 (X7_interval_follows_state _ crashed_reachable)).
Defined.

Lemma step_score_le u d s s' :
  step u d s = Some s' →
  0 ≤ highScore s → score s ≤ highScore s →
  0 ≤ highScore s' ∧ score s' ≤ highScore s'.
Proof.
  unfold step. destruct (JS.index (snake s) 0); simpl; [|done].
  intros Hstep ??. repeat case_match; simplify_eq; simpl; try done.
  all: destruct (Z.gtb_spec (score s + 10) (highScore s)); simplify_eq; lia.
Qed.

Lemma handle_score_le s u e s' :
  handle u e s = Some s' →
  0 ≤ highScore s → score s ≤ highScore s →
  0 ≤ highScore s' ∧ score s' ≤ highScore s'.
Proof.
  intros Hh Hpos Hle. destruct (firesTimer e) eqn:Ht.
  - destruct e; try done. unfold handle in Hh.
    apply fmap_Some in Hh as (t & Hd & ->). rewrite render_eq. simpl.
    simpl in Hd. destruct (loopRef s); [|by simplify_eq].
    change (intervalCallback u s)
      with (step u (activeDirection s) (consume s)) in Hd.
    destruct (consume_state s) as (_ & _ & Hsc & _ & Hhs & _).
    apply step_score_le in Hd; by rewrite ?Hsc, ?Hhs.
  - destruct (invokesReset e s) eqn:Hr.
    + rewrite (reset_event_state _ _ _ _ Hr Hh), render_eq. by simpl.
    + destruct (input_event_state _ _ _ _ Ht Hr Hh) as (b & o & ->).
      by rewrite render_eq.
Qed.

(** X10.  When the high score loaded at initialization is not negative, the
    score never exceeds the high score, in any state reached afterwards. *)
Theorem X10_score_never_exceeds_high_score u (stored : option string)
  (es : list (JS.unit_interval * Event)) s :
  0 ≤ highScore (mount u stored) →
  run es (mount u stored) = Some s →
  score s ≤ highScore s.
Proof.
  intros Hpos.
  assert (score (mount u stored) ≤ highScore (mount u stored)) as Hle.
  { unfold mount. rewrite render_eq. simpl.
    unfold mount in Hpos. rewrite render_eq in Hpos. simpl in Hpos.
    assert (score (loadEffect (initialState u stored)) = 0) as ->; [|done].
    unfold loadEffect. simpl. by repeat case_match. }
  revert Hpos Hle. generalize (mount u stored). clear stored.
  induction es as [|[u' e] es IH]; intros t Hpos Hle Hrun; simpl in Hrun.
  - by simplify_eq.
  - destruct (handle u' e t) as [t'|] eqn:Hh; [|done]. simpl in Hrun.
    destruct (handle_score_le _ _ _ _ Hh Hpos Hle). by eapply IH.
Qed.

Lemma X10_score_never_exceeds_high_score_witness :
  0 ≤ highScore (mount u0 (Some "5"))
  ∧ run ((u0, ClickStart) :: replicate 9 (u0, TimerFire)
         ++ [(u0, KeyDown "w")] ++ replicate 12 (u0, TimerFire)
         ++ [(u0, KeyDown "a")] ++ replicate 22 (u0, TimerFire))
      (mount u0 (Some "5"))
    = Some (grown)
  ∧ score (grown)
    ≤ highScore (grown).
Proof.
  assert (0 ≤ highScore (mount u0 (Some "5"))) as Hpos
    by (vm_compute; discriminate).
  assert (run ((u0, ClickStart) :: replicate 9 (u0, TimerFire)
               ++ [(u0, KeyDown "w")] ++ replicate 12 (u0, TimerFire)
               ++ [(u0, KeyDown "a")] ++ replicate 22 (u0, TimerFire))
            (mount u0 (Some "5"))
          = Some (grown)) as Hrun
    by (vm_compute; reflexivity).
  split; [exact Hpos|]. split; [exact Hrun|].
  exact (X10_score_never_exceeds_high_score _ _ _ _ Hpos Hrun).
Defined.





(** X11.  Every free cell can be the food: for each member of the list of
    free cells there is a result of [Math.random()] for which
    [getRandomFood] returns it. *)
Theorem X11_every_free_cell_can_be_drawn (occupied : list Cell) c :
  c ∈ spaces occupied → ∃ u, getRandomFood u occupied = c.
Proof. apply getRandomFood_any. Qed.

Lemma X11_every_free_cell_witness :
  mkCell 24 24 ∈ spaces createInitialSnake
  ∧ ∃ u, getRandomFood u createInitialSnake = mkCell 24 24.
Proof.
  assert (mkCell 24 24 ∈ spaces createInitialSnake) as Hin.
  { apply elem_of_spaces. split.
    - vm_compute. repeat split; discriminate.
    - apply (bool_decide_unpack _). vm_compute. reflexivity. }
  split; [exact Hin|].
  exact (X11_every_free_cell_can_be_drawn createInitialSnake _ Hin).
Defined.

(** X12.  In every reachable state the Restart button is disabled exactly
    when the Start button is shown; while the game is not over exactly one
    of the Start, Pause and Resume buttons is rendered; when it is over
    neither Start nor Resume is. *)
Theorem X12_one_of_start_pause_resume s :
  reachable s →
  restartDisabled s = showStart s
  ∧ (isGameOver s = false →
     (showStart s, isRunning s, showResume s)
     ∈ [(true, false, false); (false, true, false); (false, false, true)])
  ∧ (isGameOver s = true → showStart s = false ∧ showResume s = false).
Proof.
  intros Hs.
  pose proof (reachable_score_nonneg s Hs) as Hscore.
  unfold restartDisabled, showStart, showResume.
  destruct (isRunning s), (isGameOver s); simpl;
    destruct (Z.eqb_spec (score s) 0), (Z.gtb_spec (score s) 0);
    split_and!; try done; try lia; intros _; set_solver.
Qed.

Lemma X12_one_of_start_pause_resume_witness :
  reachable paused
  ∧ (showStart paused, isRunning paused, showResume paused)
    = (true, false, false)
  ∧ restartDisabled paused = true.
Proof.
  assert (reachable paused) as Hp.
  { apply (reachable_run [(u0, ClickPause)] started);
      [apply started_reachable|vm_compute; reflexivity]. }
  destruct (X12_one_of_start_pause_resume paused Hp) as (Hdis & _).
  split; [exact Hp|]. split; [reflexivity|].
  rewrite Hdis. reflexivity.
Defined.

(** X13.  The keys [`${x}:${y}`] of two cells are equal only if the cells
    are, so looking a cell's key up in the set of the keys of a list finds it
    exactly when the cell is in the list. *)
Theorem X13_cell_keys_are_exact (occupied : list Cell) c :
  (∀ d, cellKey c = cellKey d ↔ c = d)
  ∧ (cellKey c ∈ (list_to_set (cellKey <$> occupied) : gset string)
     ↔ c ∈ occupied).
Proof.
  split; [|apply occupiedKey_has].
  intros d. split; [apply (inj cellKey)|by intros ->].
Qed.

(** X16.  An event that is neither a timer callback nor a restart leaves
    snake, food, score, speed, high score, direction and the game-over flag
    as they are: inputs only write the pending direction and the running
    flag. *)
Theorem X16_inputs_leave_the_simulation_alone s u e s' :
  firesTimer e = false → invokesReset e s = false →
  handle u e s = Some s' →
  snake s' = snake s ∧ food s' = food s ∧ score s' = score s
  ∧ speed s' = speed s ∧ highScore s' = highScore s
  ∧ direction s' = direction s ∧ isGameOver s' = isGameOver s.
Proof.
  intros Ht Hr Hh.
  destruct (input_event_state _ _ _ _ Ht Hr Hh) as (b & o & ->).
  by rewrite render_eq.
Qed.

Lemma X16_inputs_witness :
  firesTimer (KeyDown "w") = false
  ∧ invokesReset (KeyDown "w") afterTick = false
  ∧ handle u0 (KeyDown "w") afterTick = Some turningUp
  ∧ snake turningUp = snake afterTick
  ∧ direction turningUp = direction afterTick.
Proof.
  assert (handle u0 (KeyDown "w") afterTick = Some turningUp) as Hh
    by (vm_compute; reflexivity).
  destruct (X16_inputs_leave_the_simulation_alone afterTick u0 (KeyDown "w")
              turningUp eq_refl eq_refl Hh)
    as (Hsnake & _ & _ & _ & _ & Hdir & _).
  split; [reflexivity|]. split; [reflexivity|]. split; [exact Hh|].
  split; [exact Hsnake|exact Hdir].
Defined.










End extras.
